(** * Chainsaw: deferred fluent chains, nesting and replay

    A shallow embedding of [index.js] (the [chainsaw] factory, its [saw]
    controller and [upgradeChainsaw]) together with the properties of the
    queueing and replay engine.

    Modelling conventions.
    - A JavaScript exception is the [Raise] result of a method; the state
      reached before the throw is kept.
    - Every [saw] lives in a store ([saws]) and is named by its index there:
      closures of the source that capture [saw] carry that index.
    - Code supplied by the builder (operation bodies, [nest] callbacks, trap
      callbacks) is a list of calls on the controller it closes over
      ([cmd]); the driver runs such code on an explicit call stack
      ([frame]), one call per step, with fuel bounding the number of steps.
    - [process.nextTick] callbacks are the [ticks] queue of the world.
    - A surface is a tree of plain objects, functions and data, as the
      builder wrote it.  A property read finds the properties of the tree
      first and then the ones the host gives to every object and function
      ([Object.prototype], [Function.prototype], [length], ...).  Of the
      latter the model describes [toString] and [valueOf] of
      [Object.prototype]; a run that depends on any other leaves the model.
    - Cursor positions are integers.  [saw.step] is a double, on which
      [saw.step++] adds one exactly from [-2^53] to [2^53 - 1]; statements
      about a cursor that [jump] may have put anywhere carry that range.
    - The records of the queue are the two kinds the source pushes. *)

From Stdlib Require Import ZArith String List Lia.
From stdpp Require Import base list strings.
Import ListNotations.
Set Warnings "-register-all".
Open Scope string_scope.
Open Scope Z_scope.
Open Scope list_scope.

(** ** Data model *)

(** Argument values that travel through the queue.  [VSurface] stands for a
    reference to the operation surface itself. *)
Inductive value : Type :=
| VUndef
| VNull
| VBool (b : bool)
| VNum (z : Z)
| VStr (s : string)
| VArr (l : list value)
| VSurface.

Definition path := list string.

(** The [name] argument of [trap] and [down]: a single segment or an array
    of segments. *)
Inductive name : Type :=
| NStr (s : string)
| NArr (ps : path).

(** One fluent call [this.p1.p2(args)] issued by a [nest] callback. *)
Definition fcall : Type := path * list value.

(** Calls that builder-supplied code makes on the controller it closes
    over. *)
Inductive cmd : Type :=
| CNext
| CNest (flag : option bool) (cb : list value -> list fcall) (args : list value)
| CRecord
| CTrap (n : name) (cb : list cmd)
| CDown (n : name)
| CJump (z : Z).

Definition prog := list cmd.

(** Entries of [saw.actions]: [{path, args}] or
    [{path, step, cb, trap: true}]. *)
Inductive action : Type :=
| Act (p : path) (args : list value)
| Trap (p : path) (tstep : Z) (cb : prog).

(** A tree of own properties with functions of type [F] at its leaves. *)
Inductive node (F : Type) : Type :=
| Fn (f : F)
| Obj (kvs : list (string * node F))
| Val (v : value).
Arguments Fn {F} f.
Arguments Obj {F} kvs.
Arguments Val {F} v.

(** An operation of the builder: what it does with the controller, given
    its arguments. *)
Definition body : Type := list value -> prog.

(** The operation surface, [saw.handlers]. *)
Definition surface : Type := node body.

(** Functions of the surface returned by [chain]: the closure that replaces
    an operation (it captures the saw and the path of the node it replaced),
    or a function left as it was. *)
Inductive cfunc : Type :=
| Raw (b : body)
| Proxy (sid : nat) (ps : path).

Definition chained : Type := node cfunc.

(** Listeners of the "end" event.  The source registers one kind only:
    [nest] registers the [next] of the parent on the child. *)
Inductive listener : Type :=
| LNext (parent : nat).

(** The controller.  [builder] is the builder function the constructor
    closed over, as the surface it sets up; [step] is [saw.step], undefined
    until [record()]; [on_end] holds the listeners of "end". *)
Record saw : Type := mkSaw {
  handlers : surface;
  builder : surface;
  actions : list action;
  step : option Z;
  on_end : list listener
}.

(** What an observer of a session sees: the two signals of a chain, the
    call of an operation by [next] ([EvCall]: through
    [Function.prototype.apply]; [EvMethod]: through an [apply] property of
    its own), and the call of a trap callback by [down]. *)
Inductive event : Type :=
| EvBegin (sid : nat)
| EvEnd (sid : nat)
| EvCall (sid : nat) (p : path) (args : list value)
| EvMethod (sid : nat) (p : path) (args : list value)
| EvTrap (sid : nat) (p : path) (tstep : Z).

(** The store of controllers, the callbacks waiting in
    [process.nextTick], and the trace so far. *)
Record world : Type := mkWorld {
  saws : list saw;
  ticks : list nat;
  trace : list event
}.

(** Exceptions: the host's [TypeError], and the [Error] thrown by the
    replay methods before [record()]. *)
Inductive error : Type :=
| TypeError
| UsageError (msg : string).

Definition record_first : string :=
  "To use the trap, down and jump features, please call record() first to start recording actions.".

(** ** Field updates *)

(** Assignments to the fields of a saw and to the parts of the world. *)
Definition set_actions (a : list action) (s : saw) : saw :=
  mkSaw (handlers s) (builder s) a (step s) (on_end s).

Definition set_step (c : option Z) (s : saw) : saw :=
  mkSaw (handlers s) (builder s) (actions s) c (on_end s).

Definition set_on_end (l : list listener) (s : saw) : saw :=
  mkSaw (handlers s) (builder s) (actions s) (step s) l.

Definition put_saw (sid : nat) (s : saw) (w : world) : world :=
  mkWorld (<[sid := s]> (saws w)) (ticks w) (trace w).

Definition log (e : event) (w : world) : world :=
  mkWorld (saws w) (ticks w) (trace w ++ [e]).

Definition schedule (sid : nat) (w : world) : world :=
  mkWorld (saws w) (ticks w ++ [sid]) (trace w).

Definition alloc (s : saw) (w : world) : world :=
  mkWorld (saws w ++ [s]) (ticks w) (trace w).

(** ** Property access on the surface *)

(** Values that a property read finds outside the tree.  [Inert]: the
    [toString] or [valueOf] that every plain object inherits from
    [Object.prototype], functions that accept any receiver and any
    arguments, return a value and touch nothing.  [Opaque]: anything else
    the host supplies, about which the model says nothing. *)
Inductive host : Type :=
| Inert
| Opaque.

(** What a property read gives: a node of the tree ([Val VUndef] for a
    name that nobody defines), or a value of the host. *)
Inductive reached (F : Type) : Type :=
| Own (n : node F)
| Host (h : host).
Arguments Own {F} n.
Arguments Host {F} h.

(** The string-keyed properties of [Object.prototype]. *)
Definition object_prototype : list string :=
  ["constructor"; "__defineGetter__"; "__defineSetter__"; "hasOwnProperty";
   "__lookupGetter__"; "__lookupSetter__"; "isPrototypeOf";
   "propertyIsEnumerable"; "toString"; "valueOf"; "__proto__";
   "toLocaleString"].

(** The other names a function answers to, of its own or through
    [Function.prototype]. *)
Definition function_properties : list string :=
  ["length"; "name"; "arguments"; "caller"; "prototype"; "apply"; "bind";
   "call"].

Definition mem (k : string) (l : list string) : bool :=
  existsb (String.eqb k) l.
Arguments mem : simpl never.

(** A name that a plain object does not define itself. *)
Definition inherited {F : Type} (k : string) : reached F :=
  if mem k ["toString"; "valueOf"] then Host Inert
  else if mem k object_prototype then Host Opaque
  else Own (Val VUndef).

Fixpoint assoc {F : Type} (k : string) (kvs : list (string * node F))
  : option (node F) :=
  match kvs with
  | [] => None
  | (k', n) :: rest => if String.eqb k k' then Some n else assoc k rest
  end.

(** [node[key]]: [None] is the [TypeError] of reading a property of
    [undefined] or [null].  An object answers with its own property, else
    with what it inherits; a function of the tree has no properties of its
    own making, so it answers with what the host gives to functions or with
    [undefined]; what the other data answer is left to the host. *)
Definition get_prop {F : Type} (n : node F) (k : string)
  : option (reached F) :=
  match n with
  | Obj kvs => Some (match assoc k kvs with Some c => Own c | None => inherited k end)
  | Fn _ =>
      Some (if mem k (function_properties ++ object_prototype)
            then Host Opaque else Own (Val VUndef))
  | Val VUndef | Val VNull => None
  | Val _ => Some (Host Opaque)
  end.

(** [path.forEach(function (key) { node = node[key] })]; a read from a
    value of the host gives a value of the host that the model does not
    describe. *)
Fixpoint resolve {F : Type} (n : node F) (p : path) : option (reached F) :=
  match p with
  | [] => Some (Own n)
  | k :: rest =>
      match get_prop n k with
      | Some (Own c) => resolve c rest
      | Some (Host h) => Some (Host (match rest with [] => h | _ => Opaque end))
      | None => None
      end
  end.

(** ** [traverse(...).map]

    The walk builds a copy of the tree top down and shows every node, with
    its path, to the visitor.  The visitor of [chain] replaces functions
    only, and a function has no children to descend into, so the walk is
    given the visitor's action on functions. *)
Fixpoint walk {F G : Type} (visit : path -> F -> G) (ps : path) (n : node F)
  : node G :=
  match n with
  | Fn f => Fn (visit ps f)
  | Obj kvs =>
      Obj (List.map (fun kc => (fst kc, walk visit (ps ++ [fst kc]) (snd kc))) kvs)
  | Val v => Val v
  end.

(** A map of the tree, on what a read gives: values of the host are what
    they are. *)
Definition lift {F G : Type} (g : node F -> node G) (r : reached F)
  : reached G :=
  match r with
  | Own n => Own (g n)
  | Host h => Host h
  end.

(** The visitor of [saw.chain]: the root is returned as it is, every other
    function is replaced by the queueing closure. *)
Definition chain_visit (sid : nat) (ps : path) (f : body) : cfunc :=
  match ps with
  | [] => Raw f
  | _ => Proxy sid ps
  end.

Definition chain_surface (sid : nat) (h : surface) : chained :=
  walk (chain_visit sid) [] h.

(** ** Results of a method call *)

(** A call returns ([Ok]), throws ([Raise]), or leaves the model ([Wrong]:
    it names a saw that is not in the store, calls an unwrapped root
    function of a chain surface, or depends on a value of the host that the
    model does not describe). *)
Inductive res (A : Type) : Type :=
| Ok (a : A) (w : world)
| Raise (e : error) (w : world)
| Wrong.
Arguments Ok {A} a w.
Arguments Raise {A} e w.
Arguments Wrong {A}.

(** The world a method call ends in, thrown or not. *)
Definition res_world {A : Type} (r : res A) : option world :=
  match r with
  | Ok _ w => Some w
  | Raise _ w => Some w
  | Wrong => None
  end.

(** The call stack of the driver: a pending call on the controller of saw
    [sid], or the callback that [chain] handed to [process.nextTick]. *)
Inductive frame : Type :=
| FCmd (sid : nat) (c : cmd)
| FTick (sid : nat).

Definition frames_of (sid : nat) (p : prog) : list frame :=
  List.map (FCmd sid) p.

(** ** The queue *)

(** [saw.actions[c]] *)
Definition idx (l : list action) (c : Z) : option action :=
  if c <? 0 then None else l !! Z.to_nat c.

(** [saw.pop]: [saw.actions.shift()] until [record] replaces it by
    [saw.actions[saw.step++]].  [record] defines [step] and replaces the
    method at once and nothing undoes either, so the method in force is read
    off [step].  The cursor is kept as an integer: [c + 1] is what
    [saw.step++] leaves for a cursor inside the queue and, more generally,
    from [-2^53] to [2^53 - 1] ([exact_step] below); the properties stated
    below follow a cursor only there. *)
Definition pop (s : saw) : option action * saw :=
  match step s with
  | None => (head (actions s), set_actions (tail (actions s)) s)
  | Some c => (idx (actions s) c, set_step (Some (c + 1)) s)
  end.

(** [saw.actions.push(a)] on the saw named [sid]. *)
Definition push_action (sid : nat) (a : action) (w : world) : option world :=
  match saws w !! sid with
  | Some s => Some (put_saw sid (set_actions (actions s ++ [a]) s) w)
  | None => None
  end.

(** ** [saw.chain] and fluent calls *)

(** [saw.chain]: the surface with its functions replaced, and the tick
    that will start the chain. *)
Definition saw_chain (sid : nat) (w : world) : option (chained * world) :=
  match saws w !! sid with
  | Some s => Some (chain_surface sid (handlers s), schedule sid w)
  | None => None
  end.

(** Calling the closure installed by [chain]; [ch] is the surface the
    closure captured, which it returns. *)
Definition proxy_call (ch : chained) (sid : nat) (ps : path)
  (args : list value) (w : world) : res chained :=
  match push_action sid (Act ps args) w with
  | Some w' => Ok ch w'
  | None => Wrong
  end.

(** [ch.p1.p2(args)].  Calling an object or a datum is a [TypeError]; a
    root that is itself a builder function is left unwrapped by [chain], and
    calling it directly is outside the model, as is calling a value of the
    host or a reference to the surface. *)
Definition fluent (ch : chained) (c : fcall) (w : world) : res chained :=
  match resolve ch (fst c) with
  | None => Raise TypeError w
  | Some (Own (Fn (Proxy sid ps))) => proxy_call ch sid ps (snd c) w
  | Some (Own (Fn (Raw _))) => Wrong
  | Some (Own (Val VSurface)) => Wrong
  | Some (Own _) => Raise TypeError w
  | Some (Host _) => Wrong
  end.

Fixpoint fluent_all (ch : chained) (cs : list fcall) (w : world)
  : res chained :=
  match cs with
  | [] => Ok ch w
  | c :: rest =>
      match fluent ch c w with
      | Ok ch' w' => fluent_all ch' rest w'
      | r => r
      end
  end.

(** ** [saw.next] *)

(** The call a listener of "end" makes; the listeners run in registration
    order. *)
Definition listener_frame (l : listener) : frame :=
  match l with
  | LNext parent => FCmd parent CNext
  end.

(** [saw.emit('end')] *)
Definition emit_end (sid : nat) (w : world) : res (list frame) :=
  match saws w !! sid with
  | Some s => Ok (List.map listener_frame (on_end s)) (log (EvEnd sid) w)
  | None => Wrong
  end.

(** Calling an operation [f] of the surface from the driver; [ev] records
    the call. *)
Definition call_func (sid : nat) (f : body) (ev : event) (args : list value)
  (w : world) : res (list frame) :=
  Ok (frames_of sid (f args)) (log ev w).

(** [node.apply(saw.handlers, action.args)]: on a function this is
    [Function.prototype.apply]; on an object it calls the object's own
    [apply] property as a method, with the surface and the argument array as
    its two arguments (no object inherits an [apply], and no datum has one);
    the inherited [toString] and [valueOf] return without touching the
    chain. *)
Definition apply_node (sid : nat) (n : reached body) (p : path)
  (args : list value) (w : world) : res (list frame) :=
  match n with
  | Own (Fn f) => call_func sid f (EvCall sid p args) args w
  | Own (Obj kvs) =>
      match assoc "apply" kvs with
      | Some (Fn f) =>
          call_func sid f (EvMethod sid p args) [VSurface; VArr args] w
      | Some (Val VSurface) => Wrong
      | _ => Raise TypeError w
      end
  | Own (Val VSurface) => Wrong
  | Own (Val _) => Raise TypeError w
  | Host Inert => Ok [] w
  | Host Opaque => Wrong
  end.

(** [saw.next]: [pop], then "end" when there is no record, nothing for a
    trap record, and otherwise the walk down the path and the call. *)
Definition saw_next (sid : nat) (w : world) : res (list frame) :=
  match saws w !! sid with
  | None => Wrong
  | Some s =>
      let w1 := put_saw sid (snd (pop s)) w in
      match fst (pop s) with
      | None => emit_end sid w1
      | Some (Trap _ _ _) => Ok [] w1
      | Some (Act p args) =>
          match resolve (handlers s) p with
          | None => Raise TypeError w1
          | Some n => apply_node sid n p args w1
          end
      end
  end.

(** ** [saw.record] and the replay methods of [upgradeChainsaw] *)

(** [upgradeChainsaw]: [saw.step = 0]; the methods it installs are the
    [Some] branches of [pop], [saw_trap], [saw_down] and [saw_jump]. *)
Definition upgradeChainsaw (s : saw) : saw := set_step (Some 0) s.

(** [saw.record] *)
Definition saw_record (sid : nat) (w : world) : res (list frame) :=
  match saws w !! sid with
  | Some s => Ok [] (put_saw sid (upgradeChainsaw s) w)
  | None => Wrong
  end.

(** [Array.isArray(name) ? name : [name]] *)
Definition name_path (n : name) : path :=
  match n with
  | NStr s => [s]
  | NArr ps => ps
  end.

(** [ps.join('/')] *)
Definition join (ps : path) : string := String.concat "/" ps.

(** [saw.trap]: the stub throws; after [record()] a trap record tagged
    with the current cursor is pushed. *)
Definition saw_trap (sid : nat) (n : name) (cb : prog) (w : world)
  : res (list frame) :=
  match saws w !! sid with
  | None => Wrong
  | Some s =>
      match step s with
      | None => Raise (UsageError record_first) w
      | Some c =>
          Ok [] (put_saw sid
                   (set_actions (actions s ++ [Trap (name_path n) c cb]) s) w)
      end
  end.

(** [saw.actions.slice(c)]: a negative start counts from the end. *)
Definition slice_from (c : Z) (l : list action) : list action :=
  if c <? 0
  then drop (Z.to_nat (Z.max 0 (Z.of_nat (length l) + c))) l
  else drop (Z.to_nat c) l.

(** The function mapped over the slice by [down]. *)
Definition down_match (c : Z) (ps : string) (x : action) : bool :=
  match x with
  | Trap p t _ => if t <=? c then false else String.eqb (join p) ps
  | Act p _ => String.eqb (join p) ps
  end.

(** [.indexOf(true)], [-1] when absent. *)
Fixpoint index_of_true (l : list bool) : Z :=
  match l with
  | [] => -1
  | true :: _ => 0
  | false :: rest =>
      let i := index_of_true rest in
      if i <? 0 then -1 else i + 1
  end.

(** The cursor after the search of [down]. *)
Definition down_cursor (s : saw) (c : Z) (n : name) : Z :=
  let i := index_of_true
             (List.map (down_match c (join (name_path n)))
                (slice_from c (actions s))) in
  if 0 <=? i then c + i else Z.of_nat (length (actions s)).

(** [saw.down]: the stub throws; after [record()] the search sets the
    cursor, then the record just before it decides between the trap callback
    and [next]. *)
Definition saw_down (sid : nat) (n : name) (w : world) : res (list frame) :=
  match saws w !! sid with
  | None => Wrong
  | Some s =>
      match step s with
      | None => Raise (UsageError record_first) w
      | Some c =>
          let c1 := down_cursor s c n in
          match idx (actions s) (c1 - 1) with
          | Some (Trap p t cb) =>
              Ok (frames_of sid cb)
                 (log (EvTrap sid p t) (put_saw sid (set_step (Some t) s) w))
          | _ => Ok [FCmd sid CNext] (put_saw sid (set_step (Some c1) s) w)
          end
      end
  end.

(** [saw.jump]: the stub throws; after [record()] the cursor is set and
    [next] is called. *)
Definition saw_jump (sid : nat) (z : Z) (w : world) : res (list frame) :=
  match saws w !! sid with
  | None => Wrong
  | Some s =>
      match step s with
      | None => Raise (UsageError record_first) w
      | Some _ => Ok [FCmd sid CNext] (put_saw sid (set_step (Some z) s) w)
      end
  end.

(** ** [saw.nest] *)

(** [chainsaw.saw(builder, {})] followed by the builder call: a fresh
    controller whose surface is the one the builder sets up. *)
Definition new_saw (b : surface) : saw := mkSaw b b [] None [].

(** [s.on('end', l)] *)
Definition add_listener (sid : nat) (l : listener) (w : world) : world :=
  match saws w !! sid with
  | Some s => put_saw sid (set_on_end (on_end s ++ [l]) s) w
  | None => w
  end.

(** [flag] is the optional leading boolean; without it [autonext] keeps its
    initial [true]. *)
Definition autonext (flag : option bool) : bool :=
  match flag with
  | Some b => b
  | None => true
  end.

(** [saw.nest]: a fresh controller from the same builder, recording if the
    parent has a cursor; [chain()] on it; the callback called on the surface
    [chain()] returned; then the listener, unless [autonext] is [false]. *)
Definition saw_nest (sid : nat) (flag : option bool)
  (cb : list value -> list fcall) (args : list value) (w : world)
  : res (list frame) :=
  match saws w !! sid with
  | None => Wrong
  | Some s =>
      let child := length (saws w) in
      let s0 := new_saw (builder s) in
      let s1 := match step s with
                | Some _ => upgradeChainsaw s0
                | None => s0
                end in
      match saw_chain child (alloc s1 w) with
      | None => Wrong
      | Some (ch, w1) =>
          match fluent_all ch (cb args) w1 with
          | Ok _ w2 =>
              Ok [] (if autonext flag
                     then add_listener child (LNext sid) w2
                     else w2)
          | Raise e w2 => Raise e w2
          | Wrong => Wrong
          end
      end
  end.

(** ** The driver *)

(** One call: the frames it puts on the stack and the world it leaves.
    The tick of [chain] emits "begin" and calls [next]. *)
Definition step_frame (f : frame) (w : world) : res (list frame) :=
  match f with
  | FTick sid => Ok [FCmd sid CNext] (log (EvBegin sid) w)
  | FCmd sid CNext => saw_next sid w
  | FCmd sid (CNest flag cb args) => saw_nest sid flag cb args w
  | FCmd sid CRecord => saw_record sid w
  | FCmd sid (CTrap n cb) => saw_trap sid n cb w
  | FCmd sid (CDown n) => saw_down sid n w
  | FCmd sid (CJump z) => saw_jump sid z w
  end.

(** How a turn ends: the stack ran empty, an exception reached the
    scheduler, or the run left the model. *)
Inductive outcome : Type :=
| Done (w : world)
| Threw (e : error) (w : world)
| Stuck.

(** One synchronous turn: the stack is run until it is empty or an exception
    unwinds it.  [None] means the fuel ran out. *)
Fixpoint run (fuel : nat) (k : list frame) (w : world) : option outcome :=
  match k with
  | [] => Some (Done w)
  | f :: k' =>
      match fuel with
      | O => None
      | S fuel' =>
          match step_frame f w with
          | Ok new w' => run fuel' (new ++ k') w'
          | Raise e w' => Some (Threw e w')
          | Wrong => Some Stuck
          end
      end
  end.

(** The scheduler taking a callback off its queue. *)
Definition set_ticks (t : list nat) (w : world) : world :=
  mkWorld (saws w) t (trace w).

(** The scheduler: pending ticks run one after the other, each to
    completion. *)
Fixpoint event_loop (fuel : nat) (w : world) : option outcome :=
  match ticks w with
  | [] => Some (Done w)
  | sid :: rest =>
      match fuel with
      | O => None
      | S fuel' =>
          match run fuel' [FTick sid] (set_ticks rest w) with
          | Some (Done w') => event_loop fuel' w'
          | r => r
          end
      end
  end.

(** ** The two constructors *)

(** No controller yet, nothing scheduled, nothing seen. *)
Definition empty_world : world := mkWorld [] [] [].

(** [chainsaw(builder)]: the identifier of the new controller, the
    chain-returning surface and the world. *)
Definition chainsaw (b : surface) (w : world)
  : option (nat * chained * world) :=
  let sid := length (saws w) in
  match saw_chain sid (alloc (upgradeChainsaw (new_saw b)) w) with
  | Some (ch, w') => Some (sid, ch, w')
  | None => None
  end.

(** [chainsaw.light(builder)] *)
Definition chainsaw_light (b : surface) (w : world)
  : option (nat * chained * world) :=
  let sid := length (saws w) in
  match saw_chain sid (alloc (new_saw b) w) with
  | Some (ch, w') => Some (sid, ch, w')
  | None => None
  end.

(** ** Vocabulary of the statements *)

(** The record and the event of a fluent call. *)
Definition act_of (c : fcall) : action := Act (fst c) (snd c).

Definition call_of (sid : nat) (c : fcall) : event :=
  EvCall sid (fst c) (snd c).

(** The world with more events in its trace. *)
Definition logs (evs : list event) (w : world) : world :=
  mkWorld (saws w) (ticks w) (trace w ++ evs).

(** A fluent call that names an operation of the surface. *)
Definition names_operation (h : surface) (c : fcall) : Prop :=
  fst c <> [] /\ exists f, resolve h (fst c) = Some (Own (Fn f)).

(** The operation at [fst c] exists and, called with [snd c], does its work
    and then calls [saw.next()]. *)
Definition self_advancing (h : surface) (c : fcall) : Prop :=
  exists f, resolve h (fst c) = Some (Own (Fn f)) /\ f (snd c) = [CNext].

(** The operation at [fst c] exists and, called with [snd c], does not call
    the controller. *)
Definition passive (h : surface) (c : fcall) : Prop :=
  exists f, resolve h (fst c) = Some (Own (Fn f)) /\ f (snd c) = [].

(** The cursors on which [saw.step++] adds one exactly. *)
Definition exact_step (c : Z) : Prop := - 2 ^ 53 <= c < 2 ^ 53.

(** [s'] is [s] with one record consumed: the front one gone from the queue
    of a light chain, the cursor of a recording chain one further on a queue
    that is still whole. *)
Definition popped (s s' : saw) : Prop :=
  handlers s' = handlers s /\ builder s' = builder s
  /\ on_end s' = on_end s
  /\ match step s with
     | None => step s' = None /\ actions s' = tail (actions s)
     | Some c => step s' = Some (c + 1) /\ actions s' = actions s
     end.

(** The walk certainly does not end at a function: it fails, or ends at
    [undefined], [null], a datum or an object. *)
Definition no_function {F : Type} (r : option (reached F)) : Prop :=
  match r with
  | None => True
  | Some (Own (Val v)) => v <> VSurface
  | Some (Own (Obj _)) => True
  | _ => False
  end.

(** The walk certainly ends at nothing that [next] can call: not at a
    function, and not at an object that has a function as its own
    [apply]. *)
Definition uncallable (r : option (reached body)) : Prop :=
  no_function r
  /\ forall kvs, r = Some (Own (Obj kvs)) ->
       match assoc "apply" kvs with
       | Some (Fn _) | Some (Val VSurface) => False
       | _ => True
       end.

(** The record [saw.pop] would hand to [next]. *)
Definition pending (s : saw) : option action := fst (pop s).

(** The call of a trap callback. *)
Definition is_trap_event (e : event) : bool :=
  match e with
  | EvTrap _ _ _ => true
  | _ => false
  end.

(** The controller that [nest] has built once it returns: surface from the
    same builder, the calls of the callback queued, recording as the parent,
    and the parent's [next] listening for "end" unless told otherwise. *)
Definition child_saw (parent : nat) (s : saw) (flag : option bool)
  (cs : list fcall) : saw :=
  mkSaw (builder s) (builder s) (List.map act_of cs)
    (match step s with Some _ => Some 0 | None => None end)
    (if autonext flag then [LNext parent] else []).

(** The world after a [nest] that built the child [c]. *)
Definition nested (c : saw) (w : world) : world :=
  mkWorld (saws w ++ [c]) (ticks w ++ [length (saws w)]) (trace w).

(** The frames that the "end" of the child puts on the stack. *)
Definition resume_frames (parent : nat) (flag : option bool) : list frame :=
  if autonext flag then [FCmd parent CNext] else [].

(** The child once its queue is exhausted. *)
Definition child_done (sc : saw) : saw :=
  match step sc with
  | None => set_actions [] sc
  | Some _ => set_step (Some (Z.of_nat (length (actions sc)) + 1)) sc
  end.

(** The records [pop] has still to hand out, for a cursor inside or at the
    end of the queue. *)
Definition remaining (s : saw) : list action :=
  match step s with
  | None => actions s
  | Some c => drop (Z.to_nat c) (actions s)
  end.

(** A cursor, when there is one, is not negative. *)
Definition cursor_ok (s : saw) : Prop :=
  forall c, step s = Some c -> 0 <= c.

(** The saw after [n] calls of [pop]. *)
Fixpoint consume (n : nat) (s : saw) : saw :=
  match n with
  | O => s
  | S n' => consume n' (snd (pop s))
  end.

(** How an operation behaves on a given call: it does its work and calls
    [saw.next()], or it hands [saw.nest] a callback. *)
Inductive op_kind : Type :=
| KNext
| KNest (flag : option bool) (inner : list fcall).

(** The operation named by a call behaves as its kind says; a nesting
    operation does not pass [false], and the calls of its callback name
    operations that call [saw.next()]. *)
Definition behaves (h : surface) (ck : fcall * op_kind) : Prop :=
  exists f, resolve h (fst (fst ck)) = Some (Own (Fn f)) /\
    match snd ck with
    | KNext => f (snd (fst ck)) = [CNext]
    | KNest flag inner =>
        exists cb a, f (snd (fst ck)) = [CNest flag cb a] /\ cb a = inner
                     /\ flag <> Some false
                     /\ Forall (names_operation h) inner
                     /\ Forall (self_advancing h) inner
    end.

(** The trace of a run of the records [cs] of saw [sid], when the next child
    to be built is number [child]: every nesting operation is followed by the
    whole life of its child. *)
Fixpoint run_trace (sid child : nat) (cs : list (fcall * op_kind))
  : list event :=
  match cs with
  | [] => [EvEnd sid]
  | (c, KNext) :: rest => call_of sid c :: run_trace sid child rest
  | (c, KNest _ inner) :: rest =>
      call_of sid c :: EvBegin child
        :: List.map (call_of child) inner
        ++ EvEnd child :: run_trace sid (S child) rest
  end.

(** The children such a run leaves in the store, each with its queue
    exhausted. *)
Fixpoint children (sid : nat) (s : saw) (cs : list (fcall * op_kind))
  : list saw :=
  match cs with
  | [] => []
  | (_, KNext) :: rest => children sid s rest
  | (_, KNest flag inner) :: rest =>
      child_done (child_saw sid s flag inner) :: children sid s rest
  end.

(** Fuel that suffices for such a run. *)
Fixpoint cost (cs : list (fcall * op_kind)) : nat :=
  match cs with
  | [] => 1
  | (_, KNext) :: rest => S (cost rest)
  | (_, KNest _ inner) :: rest => (cost rest + length inner + 4)%nat
  end.

(** One synchronous turn, then the scheduler until no tick is pending. *)
Definition settle (m f : nat) (k : list frame) (w : world) : option outcome :=
  match run m k w with
  | Some (Done w') => event_loop f w'
  | r => r
  end.

(** The saw an event belongs to, and the events of one saw in a trace. *)
Definition event_saw (e : event) : nat :=
  match e with
  | EvBegin sid | EvEnd sid | EvCall sid _ _ | EvMethod sid _ _
  | EvTrap sid _ _ => sid
  end.

Definition own_events (sid : nat) (t : list event) : list event :=
  List.filter (fun e => Nat.eqb (event_saw e) sid) t.

(** The record [x] sits [i] places after the cursor [c], matches the name
    [n], and no record between the cursor and [x] does. *)
Definition first_match (s : saw) (c : Z) (n : name) (i : nat) (x : action)
  : Prop :=
  actions s !! (Z.to_nat c + i)%nat = Some x
  /\ down_match c (join (name_path n)) x = true
  /\ forall j y, (j < i)%nat ->
                 actions s !! (Z.to_nat c + j)%nat = Some y ->
                 down_match c (join (name_path n)) y = false.

(** No record from the cursor on matches the name. *)
Definition no_match (s : saw) (c : Z) (n : name) : Prop :=
  forall i y, actions s !! (Z.to_nat c + i)%nat = Some y ->
              down_match c (join (name_path n)) y = false.

(** ** Examples *)

(** The callback that [do] hands to [saw.nest]: it calls [add] on the
    surface of the nested chain. *)
Definition nesting_callback : list value -> list fcall :=
  fun a => [(["add"], a)].

(** An adder after the one of the README: [add] does its work and calls
    [saw.next()], [do] hands a callback to [saw.nest].  Added to it:
    [math.neg], an operation one level down, and [peek], which does its work
    without calling the controller. *)
Definition adder : surface :=
  Obj [("add", Fn (fun _ => [CNext]));
       ("do", Fn (fun args => [CNest None nesting_callback args]));
       ("peek", Fn (fun _ => []));
       ("math", Obj [("neg", Fn (fun _ => [CNext]))])].

Definition peek_calls : list fcall :=
  [(["peek"], [VNum 1]); (["peek"], [VNum 2])].

Definition adder_calls : list fcall :=
  [(["add"], [VNum 5]); (["math"; "neg"], [VNum 1])].

(** A light chain and a recording chain on the adder, nothing queued. *)
Definition light_world : world := mkWorld [new_saw adder] [] [].

Definition recording_world : world :=
  mkWorld [upgradeChainsaw (new_saw adder)] [] [].

(** A recording chain whose two records have both run. *)
Definition replayed_world : world :=
  mkWorld [set_step (Some 2)
             (set_actions (List.map act_of adder_calls)
                (upgradeChainsaw (new_saw adder)))] [] [].

(** A recording chain whose next record is a trap record. *)
Definition trap_world : world :=
  mkWorld [set_actions [Trap ["add"] 0 [CNext]; Act ["add"] [VNum 5]]
             (upgradeChainsaw (new_saw adder))] [] [].

(** A light chain with a record for [sub], which the adder does not have. *)
Definition missing_world : world :=
  mkWorld [set_actions [Act ["sub"] [VNum 1]] (new_saw adder)] [] [].

(** A light chain on the adder with a record for [toString], a name the
    adder does not define. *)
Definition stray_world : world :=
  mkWorld [set_actions [Act ["toString"] [VNum 1]] (new_saw adder)] [] [].

(** A surface whose [tools] entry is an object with an [apply] operation; a
    record for the path [tools] is in the queue. *)
Definition toolbox : surface :=
  Obj [("tools", Obj [("apply", Fn (fun _ => []))])].

Definition toolbox_world : world :=
  mkWorld [set_actions [Act ["tools"] [VNum 1]] (new_saw toolbox)] [] [].

(** One operation has run and a trap named [again] was registered at step
    [0]; the cursor is at [1]. *)
Definition loop_saw : saw :=
  set_step (Some 1)
    (set_actions [Act ["add"] [VNum 5]; Trap ["again"] 0 [CNext]]
       (upgradeChainsaw (new_saw adder))).

Definition loop_world : world := mkWorld [loop_saw] [] [].

(** A session in the style of the README: [add], then [do], which nests
    one [add], then [math.neg]. *)
Definition readme_calls : list fcall :=
  [(["add"], [VNum 5]); (["do"], [VNum 7]); (["math"; "neg"], [VNum 1])].

Definition readme_kinds : list op_kind :=
  [KNext; KNest None [(["add"], [VNum 7])]; KNext].

(** The recording chain of that session, its three records queued. *)
Definition readme_recorded_world : world :=
  mkWorld [set_actions (List.map act_of readme_calls)
             (upgradeChainsaw (new_saw adder))] [] [].

(** A whole session: the caller builds a chain, issues its fluent calls in
    one synchronous burst and yields to the scheduler; the result is the
    trace of the session. *)
Definition session (recording : bool) (b : surface) (cs : list fcall)
  (fuel : nat) : option (list event) :=
  match (if recording then chainsaw else chainsaw_light) b empty_world with
  | Some (_, ch, w) =>
      match fluent_all ch cs w with
      | Ok _ w' =>
          match event_loop fuel w' with
          | Some (Done w'') => Some (trace w'')
          | _ => None
          end
      | _ => None
      end
  | None => None
  end.

(** A surface whose [fork] hands a callback to [saw.nest] and then calls
    [saw.next()] itself, and a session that calls [fork], then [add]. *)
Definition eager : surface :=
  Obj [("add", Fn (fun _ => [CNext]));
       ("fork", Fn (fun args => [CNest None nesting_callback args; CNext]))].

Definition eager_calls : list fcall :=
  [(["fork"], [VNum 7]); (["add"], [VNum 5])].

(** ** Vocabulary and examples of the further properties *)

Definition failing_callback : list value -> list fcall :=
  fun a => [(["add"], a); (["sub"], a); (["add"], a)].

(** A light chain with two records queued, not yet started. *)
Definition queued_light_world : world :=
  mkWorld [set_actions (List.map act_of adder_calls) (new_saw adder)] [] [].

(** Two records [peek] and [add] ahead of the cursor. *)
Definition skipping_saw : saw :=
  set_actions [Act ["peek"] [VNum 1]; Act ["add"] [VNum 5]]
    (upgradeChainsaw (new_saw adder)).

Definition skipping_world : world := mkWorld [skipping_saw] [] [].

(** Nothing is left for [pop]: the queue of a light chain is empty, the
    cursor of a recording chain is at or past the end of its queue. *)
Definition exhausted (s : saw) : Prop :=
  match step s with
  | None => actions s = []
  | Some c => Z.of_nat (length (actions s)) <= c
  end.

(** [s'] is [s] later on: still recording, same surface and builder, the
    queue of [s] with perhaps more records behind it. *)
Definition kept (s s' : saw) : Prop :=
  is_Some (step s') /\ handlers s' = handlers s /\ builder s' = builder s
  /\ exists more, actions s' = actions s ++ more.

(** Every recording saw of [w] is in [w'], kept. *)
Definition keeps_recordings (w w' : world) : Prop :=
  forall j s, saws w !! j = Some s -> is_Some (step s) ->
              exists s', saws w' !! j = Some s' /\ kept s s'.

(** The world an outcome carries. *)
Definition outcome_world (o : outcome) : option world :=
  match o with
  | Done w => Some w
  | Threw _ w => Some w
  | Stuck => None
  end.

(** A surface with an operation [mark] that registers a trap named [again]
    and goes on, and a recording chain with [mark] and [add] queued. *)
Definition marker : surface :=
  Obj [("mark", Fn (fun _ => [CTrap (NStr "again") [CNext]; CNext]));
       ("add", Fn (fun _ => [CNext]))].

Definition marker_saw : saw :=
  set_actions [Act ["mark"] []; Act ["add"] [VNum 5]]
    (upgradeChainsaw (new_saw marker)).

Definition marker_world : world := mkWorld [marker_saw] [] [].

(** * Auxiliary facts *)

(** ** The store *)

Lemma put_saw_lookup (sid : nat) (s s' : saw) (w : world) :
  saws w !! sid = Some s -> saws (put_saw sid s' w) !! sid = Some s'.
Proof.
  intros H. unfold put_saw. simpl.
  apply list_lookup_insert_eq. eapply lookup_lt_Some. exact H.
Qed.

Lemma put_saw_lookup_ne (sid j : nat) (s' : saw) (w : world) :
  sid <> j -> saws (put_saw sid s' w) !! j = saws w !! j.
Proof. intros H. unfold put_saw. simpl. by apply list_lookup_insert_ne. Qed.

Lemma put_saw_put_saw (sid : nat) (s1 s2 : saw) (w : world) :
  put_saw sid s2 (put_saw sid s1 w) = put_saw sid s2 w.
Proof. unfold put_saw. simpl. by rewrite list_insert_insert_eq. Qed.

Lemma put_saw_logs (sid : nat) (s : saw) (evs : list event) (w : world) :
  put_saw sid s (logs evs w) = logs evs (put_saw sid s w).
Proof. reflexivity. Qed.

Lemma logs_logs (e1 e2 : list event) (w : world) :
  logs e2 (logs e1 w) = logs (e1 ++ e2) w.
Proof. unfold logs. simpl. by rewrite <- app_assoc. Qed.

Lemma log_logs (e : event) (w : world) : log e w = logs [e] w.
Proof. reflexivity. Qed.

Lemma logs_nil (w : world) : logs [] w = w.
Proof. destruct w. unfold logs. simpl. by rewrite app_nil_r. Qed.

(** ** Fuel *)

Lemma run_more_fuel (n : nat) :
  forall (n' : nat) (k : list frame) (w : world) (r : outcome),
    run n k w = Some r -> (n <= n')%nat -> run n' k w = Some r.
Proof.
  induction n as [|n IH]; intros n' k w r Hrun Hle.
  - destruct k; [|discriminate]. destruct n'; exact Hrun.
  - destruct k as [|f k]; [destruct n'; exact Hrun|].
    destruct n' as [|n']; [lia|].
    simpl in *. destruct (step_frame f w); try exact Hrun.
    apply IH; [exact Hrun | lia].
Qed.

Lemma run_nil (n : nat) (w : world) : run n [] w = Some (Done w).
Proof. destruct n; reflexivity. Qed.

Lemma run_cons (n : nat) (f : frame) (k : list frame) (w : world) :
  run (S n) (f :: k) w =
  match step_frame f w with
  | Ok new w' => run n (new ++ k) w'
  | Raise e w' => Some (Threw e w')
  | Wrong => Some Stuck
  end.
Proof. reflexivity. Qed.

(** ** The surface returned by [chain] *)

Section Walk.
Context {F G : Type} (visit : path -> F -> G).

Lemma assoc_walk (k : string) (ps : path) (kvs : list (string * node F)) :
  assoc k (List.map (fun kc => (fst kc, walk visit (ps ++ [fst kc]) (snd kc))) kvs)
  = option_map (walk visit (ps ++ [k])) (assoc k kvs).
Proof.
  induction kvs as [|[k' c] kvs IH]; [reflexivity|].
  simpl. destruct (String.eqb k k') eqn:E.
  - apply String.eqb_eq in E. subst k'. reflexivity.
  - exact IH.
Qed.

Lemma lift_inherited (g : node F -> node G) (k : string) :
  (forall v, g (Val v) = Val v) -> lift g (inherited k) = inherited k.
Proof.
  intros Hg. unfold inherited.
  destruct (mem k ["toString"; "valueOf"]); [reflexivity|].
  destruct (mem k object_prototype); [reflexivity|].
  simpl. by rewrite Hg.
Qed.

(** A read on the copy finds the copy of what the read on the original
    finds; what is inherited is the same on both. *)
Lemma get_prop_walk (k : string) (ps : path) (n : node F) :
  get_prop (walk visit ps n) k
  = option_map (lift (walk visit (ps ++ [k]))) (get_prop n k).
Proof.
  destruct n as [f|kvs|v].
  - simpl.
    match goal with |- context [mem k ?l] => by destruct (mem k l) end.
  - simpl. rewrite assoc_walk. destruct (assoc k kvs); simpl; [reflexivity|].
    by rewrite lift_inherited.
  - by destruct v.
Qed.

Lemma resolve_walk (p : path) :
  forall (ps : path) (n : node F),
    resolve (walk visit ps n) p
    = option_map (lift (walk visit (ps ++ p))) (resolve n p).
Proof.
  induction p as [|k p IH]; intros ps n.
  - simpl. by rewrite app_nil_r.
  - change (resolve (walk visit ps n) (k :: p))
      with (match get_prop (walk visit ps n) k with
            | Some (Own c) => resolve c p
            | Some (Host h) =>
                Some (Host (match p with [] => h | _ => Opaque end))
            | None => None
            end).
    rewrite get_prop_walk.
    change (resolve n (k :: p))
      with (match get_prop n k with
            | Some (Own c) => resolve c p
            | Some (Host h) =>
                Some (Host (match p with [] => h | _ => Opaque end))
            | None => None
            end).
    destruct (get_prop n k) as [[c|h]|]; simpl; [|reflexivity|reflexivity].
    rewrite IH. by rewrite <- app_assoc.
Qed.

(** A path that leads to a function leads to its image under the
    visitor. *)
Lemma resolve_walk_fn (p : path) (ps : path) (n : node F) (f : F) :
  resolve n p = Some (Own (Fn f)) ->
  resolve (walk visit ps n) p = Some (Own (Fn (visit (ps ++ p) f))).
Proof. intros H. by rewrite resolve_walk, H. Qed.

(** Conversely, a function of the copy is the image of a function of the
    original at the same path. *)
Lemma resolve_walk_inv (p : path) (ps : path) (n : node F) (g : G) :
  resolve (walk visit ps n) p = Some (Own (Fn g)) ->
  exists f, resolve n p = Some (Own (Fn f)) /\ g = visit (ps ++ p) f.
Proof.
  rewrite resolve_walk.
  destruct (resolve n p) as [[[f|kvs|v]|h]|]; simpl; try discriminate.
  intros [= <-]. by exists f.
Qed.
End Walk.

Lemma chain_visit_proxy (sid : nat) (p : path) (f : body) :
  p <> [] -> chain_visit sid p f = Proxy sid p.
Proof. destruct p; [congruence | reflexivity]. Qed.

(** Every closure of the surface of saw [sid] queues on saw [sid], under the
    path at which it sits. *)
Lemma chain_surface_proxy (sid sid' : nat) (h : surface) (p ps : path) :
  resolve (chain_surface sid h) p = Some (Own (Fn (Proxy sid' ps))) ->
  sid' = sid /\ ps = p.
Proof.
  intros H. apply resolve_walk_inv in H as (f & _ & Hf).
  simpl in Hf. destruct p; simpl in Hf; [discriminate|].
  injection Hf as -> ->. done.
Qed.

(** ** Interception *)

Lemma push_action_spec (sid : nat) (a : action) (w : world) (s : saw) :
  saws w !! sid = Some s ->
  push_action sid a w = Some (put_saw sid (set_actions (actions s ++ [a]) s) w).
Proof. intros H. unfold push_action. by rewrite H. Qed.

Lemma set_actions_set_actions (a b : list action) (s : saw) :
  set_actions b (set_actions a s) = set_actions b s.
Proof. reflexivity. Qed.

Lemma fluent_all_queues (sid : nat) (h : surface) (cs : list fcall) :
  forall (w : world) (s : saw),
    saws w !! sid = Some s ->
    Forall (names_operation h) cs ->
    fluent_all (chain_surface sid h) cs w
    = Ok (chain_surface sid h)
         (put_saw sid (set_actions (actions s ++ List.map act_of cs) s) w).
Proof.
  induction cs as [|c cs IH]; intros w s Hs Hall.
  - simpl. rewrite app_nil_r. f_equal.
    destruct w as [l t tr], s. unfold put_saw, set_actions. simpl. f_equal.
    symmetry. by apply list_insert_id.
  - apply Forall_cons_1 in Hall as [[Hne [f Hf]] Hall].
    simpl. unfold fluent.
    assert (Hr : resolve (chain_surface sid h) (fst c)
                 = Some (Own (Fn (Proxy sid (fst c))))).
    { unfold chain_surface. rewrite (resolve_walk_fn _ _ _ _ _ Hf).
      simpl. by rewrite chain_visit_proxy. }
    rewrite Hr. unfold proxy_call. rewrite (push_action_spec _ _ _ _ Hs).
    rewrite (IH _ _ (put_saw_lookup _ _ _ _ Hs) Hall).
    rewrite put_saw_put_saw. simpl.
    rewrite set_actions_set_actions, <- app_assoc. reflexivity.
Qed.

(** ** One [next] *)

(** The call at the end of the walk touches neither the store nor the
    scheduler, and adds at most the event of the call to the trace. *)
Lemma apply_node_frame (sid : nat) (n : reached body) (p : path)
  (args : list value) (w w' : world) :
  res_world (apply_node sid n p args w) = Some w' ->
  saws w' = saws w /\ ticks w' = ticks w
  /\ (trace w' = trace w \/ trace w' = trace w ++ [EvCall sid p args]
      \/ trace w' = trace w ++ [EvMethod sid p args]).
Proof.
  unfold apply_node, call_func.
  repeat case_match; simpl; try discriminate; intros [= <-]; simpl; auto.
Qed.

Lemma apply_node_ok (sid : nat) (n : reached body) (p : path)
  (args : list value) (w w' : world) (k : list frame) :
  apply_node sid n p args w = Ok k w' ->
  res_world (apply_node sid n p args w) = Some w'.
Proof. by intros ->. Qed.

Lemma pop_on_end (s : saw) : on_end (snd (pop s)) = on_end s.
Proof. unfold pop. destruct (step s); reflexivity. Qed.

Lemma pop_handlers (s : saw) : handlers (snd (pop s)) = handlers s.
Proof. unfold pop. destruct (step s); reflexivity. Qed.

Lemma saw_next_end (sid : nat) (w : world) (s : saw) :
  saws w !! sid = Some s ->
  pending s = None ->
  saw_next sid w
  = Ok (List.map listener_frame (on_end s))
       (log (EvEnd sid) (put_saw sid (snd (pop s)) w)).
Proof.
  intros Hs Hp. unfold saw_next, pending in *. rewrite Hs, Hp.
  unfold emit_end. rewrite (put_saw_lookup _ _ _ _ Hs), pop_on_end.
  reflexivity.
Qed.

Lemma saw_next_trap (sid : nat) (w : world) (s : saw) (p : path) (t : Z)
  (cb : prog) :
  saws w !! sid = Some s ->
  pending s = Some (Trap p t cb) ->
  saw_next sid w = Ok [] (put_saw sid (snd (pop s)) w).
Proof.
  intros Hs Hp. unfold saw_next, pending in *. by rewrite Hs, Hp.
Qed.

Lemma saw_next_call (sid : nat) (w : world) (s : saw) (p : path)
  (args : list value) (f : body) :
  saws w !! sid = Some s ->
  pending s = Some (Act p args) ->
  resolve (handlers s) p = Some (Own (Fn f)) ->
  saw_next sid w
  = Ok (frames_of sid (f args))
       (log (EvCall sid p args) (put_saw sid (snd (pop s)) w)).
Proof.
  intros Hs Hp Hf. unfold saw_next, pending in *. by rewrite Hs, Hp, Hf.
Qed.

(** ** Draining a queue *)

Section Drain.
Variable sid : nat.

(** Light mode, operations that leave the controller alone: each [next]
    runs one operation. *)
Lemma drain_light_passive (cs : list fcall) :
  forall (rest : list action) (w : world) (s : saw) (k : list frame) (m : nat),
    saws w !! sid = Some s ->
    step s = None ->
    actions s = List.map act_of cs ++ rest ->
    Forall (passive (handlers s)) cs ->
    run (length cs + m) (repeat (FCmd sid CNext) (length cs) ++ k) w
    = run m k
        (logs (List.map (call_of sid) cs)
           (put_saw sid (set_actions rest s) w)).
Proof.
  induction cs as [|c cs IH]; intros rest w s k m Hs Hst Hq Hall.
  - simpl. rewrite logs_nil. simpl in Hq. rewrite <- Hq.
    f_equal. destruct w as [l t tr], s. unfold put_saw, set_actions. simpl.
    f_equal. symmetry. by apply list_insert_id.
  - apply Forall_cons_1 in Hall as [(f & Hf & Hbody) Hall].
    simpl. rewrite (saw_next_call _ _ _ (fst c) (snd c) f Hs).
    + rewrite Hbody. simpl app.
      unfold pop. rewrite Hst, Hq. simpl snd.
      rewrite (IH rest _ (set_actions (List.map act_of cs ++ rest) s)).
      * simpl. rewrite log_logs, put_saw_logs, put_saw_put_saw, logs_logs.
        reflexivity.
      * rewrite log_logs. simpl. by apply put_saw_lookup with (s := s).
      * exact Hst.
      * reflexivity.
      * exact Hall.
    + unfold pending, pop. rewrite Hst, Hq. reflexivity.
    + exact Hf.
Qed.
End Drain.

(** ** The cursor *)

Lemma idx_none (l : list action) (c : Z) :
  idx l c = None <-> c < 0 \/ Z.of_nat (length l) <= c.
Proof.
  unfold idx. destruct (Z.ltb_spec c 0) as [Hneg|Hpos].
  - split; [by left | done].
  - rewrite lookup_ge_None. lia.
Qed.

(** The recording [pop] reads the record under the cursor and moves the
    cursor; the queue stays as it is. *)
Lemma pop_recording (s : saw) (c : Z) :
  step s = Some c ->
  pop s = (idx (actions s) c, set_step (Some (c + 1)) s).
Proof. intros H. unfold pop. by rewrite H. Qed.

Lemma pop_light (s : saw) :
  step s = None ->
  pop s = (head (actions s), set_actions (tail (actions s)) s).
Proof. intros H. unfold pop. by rewrite H. Qed.

(** In recording mode a [next], thrown or not, leaves the saw with its
    queue and moves the cursor by one. *)
Lemma saw_next_keeps_queue (w w' : world) (sid : nat) (s : saw) (c : Z) :
  saws w !! sid = Some s ->
  step s = Some c ->
  res_world (saw_next sid w) = Some w' ->
  saws w' !! sid = Some (set_step (Some (c + 1)) s).
Proof.
  intros Hs Hst H. unfold saw_next in H. rewrite Hs in H.
  rewrite (pop_recording _ _ Hst) in H. simpl in H.
  pose proof (put_saw_lookup sid s (set_step (Some (c + 1)) s) w Hs) as Hput.
  destruct (idx (actions s) c) as [[p args|p t cb]|].
  - destruct (resolve (handlers s) p) as [n|]; simpl in H;
      [|by injection H as <-].
    apply apply_node_frame in H as (H & _). by rewrite H.
  - by injection H as <-.
  - unfold emit_end in H. rewrite Hput in H. by injection H as <-.
Qed.

(** ** [record] *)

Lemma idx_zero (l : list action) : idx l 0 = head l.
Proof. unfold idx. simpl. by destruct l. Qed.

Lemma push_action_frame (sid : nat) (a : action) (w w' : world) :
  push_action sid a w = Some w' ->
  trace w' = trace w /\ ticks w' = ticks w
  /\ length (saws w') = length (saws w).
Proof.
  unfold push_action. destruct (saws w !! sid); [|discriminate].
  intros [= <-]. simpl. by rewrite length_insert.
Qed.

Lemma fluent_trace (ch ch' : chained) (c : fcall) (w w' : world) :
  fluent ch c w = Ok ch' w' -> ch' = ch /\ trace w' = trace w.
Proof.
  unfold fluent, proxy_call.
  destruct (resolve ch (fst c)) as [[[[b|sid ps]|kvs|v]|h]|];
    try discriminate; [|by destruct v].
  destruct (push_action sid (Act ps (snd c)) w) as [w2|] eqn:E; [|discriminate].
  intros [= <- <-]. split; [reflexivity|].
  by destruct (push_action_frame _ _ _ _ E).
Qed.

Lemma fluent_all_trace (ch : chained) (cs : list fcall) :
  forall (w w' : world) (ch' : chained),
    fluent_all ch cs w = Ok ch' w' -> ch' = ch /\ trace w' = trace w.
Proof.
  induction cs as [|c cs IH]; intros w w' ch' H.
  - simpl in H. by injection H as <- <-.
  - simpl in H. destruct (fluent ch c w) as [ch1 w1| |] eqn:E; try discriminate.
    apply fluent_trace in E as [-> E].
    apply IH in H as [-> H]. split; [reflexivity | congruence].
Qed.

(** [next] adds at most one event to the trace: "end", or the call it
    makes. *)
Lemma saw_next_trace (sid : nat) (w w' : world) (k : list frame) :
  saw_next sid w = Ok k w' ->
  exists evs, trace w' = trace w ++ evs
    /\ (evs = [] \/ evs = [EvEnd sid]
        \/ exists p args, evs = [EvCall sid p args]
                          \/ evs = [EvMethod sid p args]).
Proof.
  unfold saw_next. destruct (saws w !! sid) as [s|] eqn:Hs; [|discriminate].
  destruct (fst (pop s)) as [[p args|p t cb]|] eqn:Hp.
  - destruct (resolve (handlers s) p) as [n|]; [|discriminate].
    intros H. apply apply_node_ok, apply_node_frame in H as (_ & _ & H).
    simpl in H. destruct H as [H|[H|H]].
    + exists []. rewrite app_nil_r. split; [exact H | by left].
    + exists [EvCall sid p args].
      split; [exact H | right; right; exists p, args; by left].
    + exists [EvMethod sid p args].
      split; [exact H | right; right; exists p, args; by right].
  - intros [= <- <-]. exists []. simpl. rewrite app_nil_r.
    split; [reflexivity | by left].
  - unfold emit_end. rewrite (put_saw_lookup _ _ _ _ Hs).
    intros [= <- <-]. exists [EvEnd sid].
    split; [reflexivity | right; by left].
Qed.

(** Only [down] adds a trap firing to the trace. *)
Lemma step_frame_trap_events (f : frame) (w w' : world) (k : list frame) :
  step_frame f w = Ok k w' ->
  (forall sid n, f <> FCmd sid (CDown n)) ->
  exists evs, trace w' = trace w ++ evs
              /\ Forall (fun e => is_trap_event e = false) evs.
Proof.
  intros H Hnd. destruct f as [sid c|sid].
  - destruct c as [|flag cb args| |n cb|n|z]; simpl in H.
    + apply saw_next_trace in H as (evs & Ht & Hev). exists evs.
      split; [exact Ht|].
      destruct Hev as [->|[->|(p & args & [->| ->])]]; repeat constructor.
    + unfold saw_nest, saw_chain in H.
      destruct (saws w !! sid) as [s|]; [|discriminate].
      destruct (saws (alloc _ w) !! length (saws w)); [|discriminate].
      destruct (fluent_all _ _ _) as [ch' w2| |] eqn:E; try discriminate.
      apply fluent_all_trace in E as [_ E]. simpl in E.
      injection H as <- <-. exists []. rewrite app_nil_r. split; [|constructor].
      destruct (autonext flag); [|exact E].
      unfold add_listener. destruct (saws w2 !! _); exact E.
    + unfold saw_record in H. destruct (saws w !! sid); [|discriminate].
      injection H as <- <-. exists []. by rewrite app_nil_r.
    + unfold saw_trap in H. destruct (saws w !! sid) as [s|]; [|discriminate].
      destruct (step s); [|discriminate].
      injection H as <- <-. exists []. by rewrite app_nil_r.
    + exfalso. by apply (Hnd sid n).
    + unfold saw_jump in H. destruct (saws w !! sid) as [s|]; [|discriminate].
      destruct (step s); [|discriminate].
      injection H as <- <-. exists []. by rewrite app_nil_r.
  - simpl in H. injection H as <- <-. exists [EvBegin sid].
    split; [reflexivity | repeat constructor].
Qed.

Lemma pending_none (s : saw) :
  pending s = None <->
  match step s with
  | None => actions s = []
  | Some c => c < 0 \/ Z.of_nat (length (actions s)) <= c
  end.
Proof.
  unfold pending, pop. destruct (step s) as [c|]; simpl.
  - apply idx_none.
  - destruct (actions s); simpl; split; congruence.
Qed.

(** [next] signals "end" exactly when [pop] hands out nothing. *)
Lemma saw_next_ends (sid : nat) (w : world) (s : saw) :
  saws w !! sid = Some s ->
  (exists k w', saw_next sid w = Ok k w' /\ trace w' = trace w ++ [EvEnd sid])
  <-> pending s = None.
Proof.
  intros Hs. split.
  - intros (k & w' & Hn & Ht).
    destruct (pending s) as [[p args|p t cb]|] eqn:Hp; [| |reflexivity];
      exfalso.
    + unfold saw_next in Hn. unfold pending in Hp. rewrite Hs, Hp in Hn.
      destruct (resolve (handlers s) p) as [n|]; [|discriminate].
      apply apply_node_ok, apply_node_frame in Hn as (_ & _ & Hn).
      simpl in Hn. rewrite Ht in Hn. destruct Hn as [Hn|[Hn|Hn]].
      * rewrite <- (app_nil_r (trace w)) in Hn at 2.
        apply app_inv_head in Hn. discriminate.
      * apply app_inv_head in Hn. discriminate.
      * apply app_inv_head in Hn. discriminate.
    + rewrite (saw_next_trap _ _ _ _ _ _ Hs Hp) in Hn.
      injection Hn as <- <-. simpl in Ht.
      rewrite <- (app_nil_r (trace w)) in Ht at 1.
      apply app_inv_head in Ht. discriminate.
  - intros Hp. rewrite (saw_next_end _ _ _ Hs Hp). eauto.
Qed.

(** What [pop] leaves, read field by field. *)
Lemma pop_popped (s : saw) : popped s (snd (pop s)).
Proof.
  unfold popped, pop. destruct (step s) as [c|] eqn:Hst; simpl; done.
Qed.

Lemma alloc_lookup_new (x : saw) (w : world) :
  saws (alloc x w) !! length (saws w) = Some x.
Proof. simpl. rewrite lookup_app_r by lia. by rewrite Nat.sub_diag. Qed.

Lemma put_saw_new (x y : saw) (l : list saw) (t : list nat)
  (tr : list event) :
  put_saw (length l) x (mkWorld (l ++ [y]) t tr) = mkWorld (l ++ [x]) t tr.
Proof.
  unfold put_saw. simpl. f_equal.
  rewrite insert_app_r_alt by lia. by rewrite Nat.sub_diag.
Qed.

Lemma add_listener_spec (sid : nat) (l : listener) (w : world) (s : saw) :
  saws w !! sid = Some s ->
  add_listener sid l w = put_saw sid (set_on_end (on_end s ++ [l]) s) w.
Proof. intros H. unfold add_listener. by rewrite H. Qed.

Lemma saw_nest_ok (w : world) (sid : nat) (s : saw) (flag : option bool)
  (cb : list value -> list fcall) (args : list value) :
  saws w !! sid = Some s ->
  Forall (names_operation (builder s)) (cb args) ->
  saw_nest sid flag cb args w
  = Ok [] (nested (child_saw sid s flag (cb args)) w).
Proof.
  intros Hs Hops. unfold saw_nest, saw_chain. rewrite Hs.
  rewrite alloc_lookup_new.
  set (s1 := match step s with
             | Some _ => upgradeChainsaw (new_saw (builder s))
             | None => new_saw (builder s)
             end).
  assert (Hh : handlers s1 = builder s) by (unfold s1; by destruct (step s)).
  rewrite Hh.
  set (w1 := schedule (length (saws w)) (alloc s1 w)).
  assert (Hs1 : saws w1 !! length (saws w) = Some s1)
    by apply alloc_lookup_new.
  rewrite (fluent_all_queues _ _ _ w1 s1 Hs1 Hops).
  cbv beta iota. f_equal.
  assert (Hput : forall x, put_saw (length (saws w)) x w1 = nested x w).
  { intros x. unfold w1, schedule, alloc. simpl. apply put_saw_new. }
  destruct (autonext flag) eqn:Ha.
  - rewrite (add_listener_spec _ _ _ _ (put_saw_lookup _ _ _ _ Hs1)).
    rewrite put_saw_put_saw, Hput. f_equal.
    unfold child_saw, s1. rewrite Ha. by destruct (step s).
  - rewrite Hput. f_equal.
    unfold child_saw, s1. rewrite Ha. by destruct (step s).
Qed.

(** ** Recording is inherited by the child *)

Lemma put_saw_steps (sid : nat) (s s' : saw) (w : world) :
  saws w !! sid = Some s ->
  step s' = step s ->
  forall j, option_map step (saws (put_saw sid s' w) !! j)
            = option_map step (saws w !! j).
Proof.
  intros Hs Hst j. destruct (decide (sid = j)) as [<-|Hne].
  - rewrite (put_saw_lookup _ _ _ _ Hs), Hs. simpl. by rewrite Hst.
  - by rewrite put_saw_lookup_ne.
Qed.

Lemma push_action_steps (sid : nat) (a : action) (w w' : world) :
  push_action sid a w = Some w' ->
  forall j, option_map step (saws w' !! j) = option_map step (saws w !! j).
Proof.
  unfold push_action. destruct (saws w !! sid) as [s|] eqn:Hs; [|discriminate].
  intros [= <-]. by apply put_saw_steps with (s := s).
Qed.

Lemma fluent_steps (ch : chained) (c : fcall) (w w' : world) :
  res_world (fluent ch c w) = Some w' ->
  forall j, option_map step (saws w' !! j) = option_map step (saws w !! j).
Proof.
  unfold fluent, proxy_call.
  destruct (resolve ch (fst c)) as [[[[b|sid ps]|kvs|v]|h]|]; simpl;
    try discriminate; try (by intros [= <-]);
    [|destruct v; simpl; try discriminate; by intros [= <-]].
  destruct (push_action sid (Act ps (snd c)) w) as [w2|] eqn:E;
    [|discriminate].
  simpl. intros [= <-]. by apply push_action_steps with (sid := sid) (a := Act ps (snd c)).
Qed.

Lemma fluent_all_steps (ch : chained) (cs : list fcall) :
  forall (w w' : world),
    res_world (fluent_all ch cs w) = Some w' ->
    forall j, option_map step (saws w' !! j) = option_map step (saws w !! j).
Proof.
  induction cs as [|c cs IH]; intros w w' H j.
  - simpl in H. by injection H as <-.
  - simpl in H. destruct (fluent ch c w) as [ch1 w1|e w1|] eqn:E.
    + destruct (fluent_trace _ _ _ _ _ E) as [-> _].
      rewrite (IH _ _ H j). apply fluent_steps with (ch := ch) (c := c).
      by rewrite E.
    + apply fluent_steps with (ch := ch) (c := c). by rewrite E.
    + discriminate.
Qed.

Lemma add_listener_steps (sid : nat) (l : listener) (w : world) :
  forall j, option_map step (saws (add_listener sid l w) !! j)
            = option_map step (saws w !! j).
Proof.
  intros j. unfold add_listener. destruct (saws w !! sid) as [s|] eqn:Hs;
    [|reflexivity].
  by apply put_saw_steps with (s := s).
Qed.

(** ** [down] *)

Lemma index_of_true_found (l : list bool) :
  forall (i : nat),
    l !! i = Some true ->
    (forall j, (j < i)%nat -> l !! j = Some false) ->
    index_of_true l = Z.of_nat i.
Proof.
  induction l as [|b l IH]; intros i Hi Hbefore; [discriminate|].
  destruct i as [|i].
  - simpl in Hi. injection Hi as ->. reflexivity.
  - pose proof (Hbefore 0%nat ltac:(lia)) as H0. simpl in H0.
    injection H0 as ->. simpl index_of_true.
    rewrite (IH i).
    + destruct (Z.ltb_spec (Z.of_nat i) 0); lia.
    + exact Hi.
    + intros j Hj. apply (Hbefore (S j)). lia.
Qed.

Lemma index_of_true_absent (l : list bool) :
  (forall i, l !! i <> Some true) -> index_of_true l = -1.
Proof.
  induction l as [|b l IH]; intros H; [reflexivity|].
  destruct b.
  - by destruct (H 0%nat).
  - simpl index_of_true. rewrite IH; [reflexivity|].
    intros i. apply (H (S i)).
Qed.

Lemma slice_from_lookup (c : Z) (l : list action) (i : nat) :
  0 <= c -> slice_from c l !! i = l !! (Z.to_nat c + i)%nat.
Proof.
  intros Hc. unfold slice_from. destruct (Z.ltb_spec c 0); [lia|].
  apply lookup_drop.
Qed.

(** What [down] decides once the search has settled the cursor. *)
Lemma saw_down_trap (w : world) (sid : nat) (s : saw) (c : Z) (n : name)
  (p : path) (t : Z) (cb : prog) :
  saws w !! sid = Some s ->
  step s = Some c ->
  idx (actions s) (down_cursor s c n - 1) = Some (Trap p t cb) ->
  saw_down sid n w
  = Ok (frames_of sid cb)
       (log (EvTrap sid p t) (put_saw sid (set_step (Some t) s) w)).
Proof. intros Hs Hst Ht. unfold saw_down. by rewrite Hs, Hst, Ht. Qed.

Lemma saw_down_next (w : world) (sid : nat) (s : saw) (c : Z) (n : name) :
  saws w !! sid = Some s ->
  step s = Some c ->
  (forall p t cb,
     idx (actions s) (down_cursor s c n - 1) <> Some (Trap p t cb)) ->
  saw_down sid n w
  = Ok [FCmd sid CNext]
       (put_saw sid (set_step (Some (down_cursor s c n)) s) w).
Proof.
  intros Hs Hst Ht. unfold saw_down. rewrite Hs, Hst.
  destruct (idx (actions s) (down_cursor s c n - 1)) as [[?|p t cb]|] eqn:E;
    try reflexivity.
  by destruct (Ht p t cb).
Qed.

Lemma down_cursor_found (s : saw) (c : Z) (n : name) (i : nat) (x : action) :
  0 <= c -> first_match s c n i x -> down_cursor s c n = c + Z.of_nat i.
Proof.
  intros Hc (Hx & Hm & Hbefore). unfold down_cursor.
  rewrite (index_of_true_found _ i).
  - destruct (Z.leb_spec 0 (Z.of_nat i)); [reflexivity | lia].
  - rewrite list_lookup_fmap, slice_from_lookup, Hx by exact Hc.
    simpl. by rewrite Hm.
  - intros j Hj. rewrite list_lookup_fmap, slice_from_lookup by exact Hc.
    destruct (actions s !! (Z.to_nat c + j)%nat) as [y|] eqn:Hy.
    + simpl. by rewrite (Hbefore j y Hj Hy).
    + exfalso. apply lookup_ge_None in Hy. apply lookup_lt_Some in Hx. lia.
Qed.

Lemma down_cursor_absent (s : saw) (c : Z) (n : name) :
  0 <= c -> no_match s c n ->
  down_cursor s c n = Z.of_nat (length (actions s)).
Proof.
  intros Hc Hno. unfold down_cursor. rewrite index_of_true_absent; [reflexivity|].
  intros i. rewrite list_lookup_fmap, slice_from_lookup by exact Hc.
  destruct (actions s !! (Z.to_nat c + i)%nat) as [y|] eqn:Hy; [|discriminate].
  simpl. by rewrite (Hno i y Hy).
Qed.

(** A record matches when it is not a trap registered at or before the
    cursor and its path, joined with "/", is the joined name. *)
Lemma down_match_spec (c : Z) (n : name) (x : action) :
  down_match c (join (name_path n)) x = true <->
  match x with
  | Act p _ => join p = join (name_path n)
  | Trap p t _ => c < t /\ join p = join (name_path n)
  end.
Proof.
  destruct x as [p args|p t cb]; simpl.
  - apply String.eqb_eq.
  - destruct (Z.leb_spec t c).
    + split; [discriminate | lia].
    + rewrite String.eqb_eq. split; [by split | by intros [_ ?]].
Qed.

(** ** Light chains stay light *)

Lemma put_saw_light (sid j : nat) (s' : saw) (w : world) :
  (forall s0, saws w !! sid = Some s0 -> sid = j -> step s' = None) ->
  option_map step (saws w !! j) = Some None ->
  option_map step (saws (put_saw sid s' w) !! j) = Some None.
Proof.
  intros Hst Hj. destruct (decide (sid = j)) as [<-|Hne].
  - destruct (saws w !! sid) as [s0|] eqn:Hs; [|discriminate].
    rewrite (put_saw_lookup _ _ _ _ Hs). simpl. f_equal. by eapply Hst.
  - by rewrite put_saw_lookup_ne.
Qed.

(** Only [record()] on the chain itself gives a light chain a cursor. *)
Lemma step_frame_keeps_light (f : frame) (w w' : world) (j : nat) :
  option_map step (saws w !! j) = Some None ->
  res_world (step_frame f w) = Some w' ->
  f <> FCmd j CRecord ->
  option_map step (saws w' !! j) = Some None.
Proof.
  intros Hj H Hf. destruct f as [sid c|sid]; [|by injection H as <-].
  destruct c as [|flag cb args| |n cb|n|z]; simpl in H.
  - unfold saw_next in H. destruct (saws w !! sid) as [s|] eqn:Hs;
      [|discriminate].
    assert (Hput : option_map step (saws (put_saw sid (snd (pop s)) w) !! j)
                   = Some None).
    { apply put_saw_light; [|exact Hj]. intros s0 Hs0 <-.
      rewrite Hs in Hj. simpl in Hj. injection Hj as Hj.
      unfold pop. by rewrite Hj. }
    destruct (fst (pop s)) as [[p args|p t cb]|].
    + destruct (resolve (handlers s) p) as [n|]; simpl in H;
        [|by injection H as <-].
      apply apply_node_frame in H as (H & _). by rewrite H.
    + by injection H as <-.
    + unfold emit_end in H. rewrite (put_saw_lookup _ _ _ _ Hs) in H.
      by injection H as <-.
  - unfold saw_nest, saw_chain in H.
    destruct (saws w !! sid) as [s|] eqn:Hs; [|discriminate].
    rewrite alloc_lookup_new in H.
    set (s1 := match step s with
               | Some _ => upgradeChainsaw (new_saw (builder s))
               | None => new_saw (builder s)
               end) in H.
    set (w1 := schedule (length (saws w)) (alloc s1 w)) in H.
    assert (Hj1 : option_map step (saws w1 !! j) = Some None).
    { unfold w1. simpl. destruct (saws w !! j) as [sj|] eqn:E; [|discriminate].
      by rewrite (lookup_app_l_Some _ _ _ _ E). }
    destruct (fluent_all _ (cb args) w1) as [ch2 w2|e w2|] eqn:E;
      simpl in H; [| |discriminate]; injection H as <-.
    + assert (St : option_map step (saws w2 !! j) = Some None).
      { rewrite <- Hj1. eapply fluent_all_steps. by rewrite E. }
      destruct (autonext flag); [|exact St]. by rewrite add_listener_steps.
    + rewrite <- Hj1. eapply fluent_all_steps. by rewrite E.
  - unfold saw_record in H. destruct (saws w !! sid) as [s|] eqn:Hs;
      [|discriminate].
    injection H as <-. rewrite put_saw_lookup_ne; [exact Hj|].
    intros ->. by apply Hf.
  - unfold saw_trap in H. destruct (saws w !! sid) as [s|] eqn:Hs;
      [|discriminate].
    destruct (step s) as [c|] eqn:Hst; simpl in H; injection H as <-;
      [|exact Hj].
    apply put_saw_light; [|exact Hj]. intros s0 Hs0 <-.
    rewrite Hs in Hj. simpl in Hj. congruence.
  - unfold saw_down in H. destruct (saws w !! sid) as [s|] eqn:Hs;
      [|discriminate].
    destruct (step s) as [c|] eqn:Hst; simpl in H; [|by injection H as <-].
    assert (Hne : sid <> j).
    { intros <-. rewrite Hs in Hj. simpl in Hj. congruence. }
    destruct (idx (actions s) (down_cursor s c n - 1)) as [[?|p t cb]|];
      simpl in H; injection H as <-; simpl;
      by rewrite list_lookup_insert_ne.
  - unfold saw_jump in H. destruct (saws w !! sid) as [s|] eqn:Hs;
      [|discriminate].
    destruct (step s) as [c|] eqn:Hst; simpl in H; injection H as <-;
      [|exact Hj].
    assert (Hne : sid <> j).
    { intros <-. rewrite Hs in Hj. simpl in Hj. congruence. }
    by rewrite put_saw_lookup_ne.
Qed.

(** ** Runs of a whole queue *)

Lemma pending_remaining (s : saw) :
  cursor_ok s -> pending s = head (remaining s).
Proof.
  intros Hok. unfold pending, remaining.
  destruct (step s) as [c|] eqn:Hst.
  - rewrite (pop_recording _ _ Hst). simpl.
    unfold idx. destruct (Z.ltb_spec c 0) as [Hneg|_].
    + specialize (Hok c Hst). lia.
    + rewrite head_lookup, lookup_drop. f_equal. lia.
  - by rewrite (pop_light _ Hst).
Qed.

Lemma drop_succ_tail {A : Type} (n : nat) (l : list A) :
  drop (S n) l = tail (drop n l).
Proof.
  revert l. induction n as [|n IH]; intros l; destruct l as [|x l];
    try reflexivity.
  exact (IH l).
Qed.

Lemma remaining_pop (s : saw) :
  cursor_ok s -> remaining (snd (pop s)) = tail (remaining s).
Proof.
  intros Hok. destruct (step s) as [c|] eqn:Hst.
  - rewrite (pop_recording _ _ Hst). unfold remaining. simpl. rewrite Hst.
    specialize (Hok c Hst).
    replace (Z.to_nat (c + 1)) with (S (Z.to_nat c)) by lia.
    apply drop_succ_tail.
  - rewrite (pop_light _ Hst). unfold remaining. simpl. by rewrite Hst.
Qed.

Lemma cursor_ok_pop (s : saw) : cursor_ok s -> cursor_ok (snd (pop s)).
Proof.
  intros Hok c. destruct (step s) as [c0|] eqn:Hst.
  - rewrite (pop_recording _ _ Hst). simpl.
    intros [= <-]. specialize (Hok c0 Hst). lia.
  - rewrite (pop_light _ Hst). simpl. by rewrite Hst.
Qed.

Lemma pop_builder (s : saw) : builder (snd (pop s)) = builder s.
Proof. unfold pop. destruct (step s); reflexivity. Qed.

Lemma child_saw_pop (sid : nat) (s : saw) (flag : option bool)
  (cs : list fcall) :
  child_saw sid (snd (pop s)) flag cs = child_saw sid s flag cs.
Proof.
  unfold child_saw. destruct (step s) as [c|] eqn:Hst.
  - rewrite (pop_recording _ _ Hst). simpl. by rewrite ?Hst.
  - rewrite (pop_light _ Hst). simpl. by rewrite ?Hst.
Qed.

Lemma children_pop (sid : nat) (s : saw) (cs : list (fcall * op_kind)) :
  children sid (snd (pop s)) cs = children sid s cs.
Proof.
  induction cs as [|[x [|flag inner]] cs IH]; simpl; [done|done|].
  by rewrite IH, child_saw_pop.
Qed.

Lemma consume_light (n : nat) :
  forall s, step s = None -> consume n s = set_actions (drop n (actions s)) s.
Proof.
  induction n as [|n IH]; intros s Hst.
  - simpl. by destruct s.
  - simpl. rewrite (pop_light _ Hst). simpl. rewrite IH by exact Hst.
    unfold set_actions. simpl. f_equal.
    destruct (actions s); simpl; [by rewrite drop_nil | reflexivity].
Qed.

Lemma consume_recording (n : nat) :
  forall s c, step s = Some c ->
              consume n s = set_step (Some (c + Z.of_nat n)) s.
Proof.
  induction n as [|n IH]; intros s c Hst.
  - simpl. rewrite Z.add_0_r. destruct s. simpl in Hst. by subst.
  - simpl consume. rewrite (pop_recording _ _ Hst). simpl snd.
    rewrite (IH _ (c + 1)) by reflexivity.
    unfold set_step. simpl. do 2 f_equal. lia.
Qed.

(** A saw before its first [pop] that has consumed its whole queue and
    found it empty once more. *)
Lemma consume_fresh (s : saw) :
  (forall c, step s = Some c -> c = 0) ->
  consume (S (length (actions s))) s = child_done s.
Proof.
  intros Hc. unfold child_done. destruct (step s) as [c|] eqn:Hst.
  - rewrite (consume_recording _ _ _ Hst). rewrite (Hc c eq_refl).
    do 2 f_equal. lia.
  - rewrite (consume_light _ _ Hst). f_equal. apply drop_ge. lia.
Qed.

Section Drain.
Variable sid : nat.

(** Operations that call [next] themselves: one [next] runs every record
    that remains, signals "end" and hands over to the listeners. *)
Lemma drain (cs : list fcall) :
  forall (w : world) (s : saw) (k : list frame) (m : nat),
    saws w !! sid = Some s ->
    cursor_ok s ->
    remaining s = List.map act_of cs ->
    Forall (self_advancing (handlers s)) cs ->
    run (length cs + 1 + m) (FCmd sid CNext :: k) w
    = run m (List.map listener_frame (on_end s) ++ k)
        (logs (List.map (call_of sid) cs ++ [EvEnd sid])
           (put_saw sid (consume (S (length cs)) s) w)).
Proof.
  induction cs as [|c cs IH]; intros w s k m Hs Hok Hq Hall.
  - simpl. rewrite (saw_next_end _ _ _ Hs); [reflexivity|].
    by rewrite (pending_remaining _ Hok), Hq.
  - apply Forall_cons_1 in Hall as [(f & Hf & Hbody) Hall].
    change (length (c :: cs) + 1 + m)%nat with (S (length cs + 1 + m)).
    rewrite run_cons. simpl step_frame.
    rewrite (saw_next_call _ _ _ (fst c) (snd c) f Hs).
    + rewrite Hbody. simpl app.
      rewrite (IH _ (snd (pop s))).
      * rewrite pop_on_end. simpl consume.
        rewrite log_logs, put_saw_logs, put_saw_put_saw, logs_logs.
        reflexivity.
      * rewrite log_logs. simpl. by apply put_saw_lookup with (s := s).
      * by apply cursor_ok_pop.
      * by rewrite (remaining_pop _ Hok), Hq.
      * by rewrite pop_handlers.
    + by rewrite (pending_remaining _ Hok), Hq.
    + exact Hf.
Qed.
End Drain.

(** The tick of a fresh chain whose operations call [next] themselves. *)
Lemma child_tick (w : world) (child : nat) (sc : saw) (cs : list fcall) (m : nat) :
  saws w !! child = Some sc ->
  actions sc = List.map act_of cs ->
  (forall c, step sc = Some c -> c = 0) ->
  Forall (self_advancing (handlers sc)) cs ->
  run (length cs + 2 + m) [FTick child] w
  = run m (List.map listener_frame (on_end sc))
      (logs (EvBegin child :: List.map (call_of child) cs ++ [EvEnd child])
         (put_saw child (child_done sc) w)).
Proof.
  intros Hsc Hq Hc Hadv.
  replace (length cs + 2 + m)%nat with (S (length cs + 1 + m)) by lia.
  rewrite run_cons. simpl step_frame. cbv beta iota.
  rewrite (app_nil_r [FCmd child CNext]).
  assert (Hsc' : saws (log (EvBegin child) w) !! child = Some sc) by exact Hsc.
  rewrite (drain child cs _ sc [] m Hsc').
  - rewrite app_nil_r. f_equal. rewrite log_logs, put_saw_logs, logs_logs.
    rewrite <- (consume_fresh _ Hc), Hq, length_map. reflexivity.
  - intros c Hst. rewrite (Hc c Hst). lia.
  - unfold remaining. destruct (step sc) as [c|] eqn:Hst; [|exact Hq].
    by rewrite (Hc c eq_refl).
  - exact Hadv.
Qed.

Lemma event_loop_idle (f : nat) (w : world) :
  ticks w = [] -> event_loop f w = Some (Done w).
Proof. intros H. destruct f; simpl; by rewrite H. Qed.

Section Settle.
Variable sid : nat.

(** A chain of operations that call [next] themselves or nest: the turn
    started by [next] and the ticks it leads to run the whole queue, every
    child between the operation that nested it and the following one. *)
Lemma settle_chain (cs : list (fcall * op_kind)) :
  forall (w : world) (s : saw) (m f : nat),
    saws w !! sid = Some s ->
    ticks w = [] ->
    cursor_ok s ->
    remaining s = List.map (fun ck => act_of (fst ck)) cs ->
    builder s = handlers s ->
    on_end s = [] ->
    Forall (behaves (handlers s)) cs ->
    (cost cs <= m)%nat ->
    (cost cs <= f)%nat ->
    settle m f [FCmd sid CNext] w
    = Some (Done (mkWorld
                    (<[sid := consume (S (length cs)) s]> (saws w)
                     ++ children sid s cs)
                    []
                    (trace w ++ run_trace sid (length (saws w)) cs))).
Proof.
  induction cs as [|[c kind] cs IH];
    intros w s m f Hs Htk Hok Hq Hb Hend Hall Hm Hf.
  - simpl in Hm. destruct m as [|m]; [lia|].
    unfold settle. rewrite run_cons. simpl step_frame.
    rewrite (saw_next_end _ _ _ Hs)
      by (by rewrite (pending_remaining _ Hok), Hq).
    rewrite Hend. simpl. rewrite run_nil.
    rewrite event_loop_idle by exact Htk.
    unfold log, put_saw. simpl. by rewrite app_nil_r, Htk.
  - apply Forall_cons_1 in Hall as [(g & Hg & Hkind) Hall].
    simpl in Hg, Hkind.
    assert (Hpend : pending s = Some (Act (fst c) (snd c)))
      by (by rewrite (pending_remaining _ Hok), Hq).
    set (s' := snd (pop s)).
    set (w1 := log (call_of sid c) (put_saw sid s' w)).
    assert (Hs1 : saws w1 !! sid = Some s')
      by (by apply put_saw_lookup with (s := s)).
    assert (Hok' : cursor_ok s') by (by apply cursor_ok_pop).
    assert (Hq' : remaining s' = List.map (fun ck => act_of (fst ck)) cs)
      by (unfold s'; by rewrite (remaining_pop _ Hok), Hq).
    assert (Hb' : builder s' = handlers s')
      by (unfold s'; by rewrite pop_builder, pop_handlers).
    assert (Hend' : on_end s' = [])
      by (unfold s'; by rewrite pop_on_end).
    assert (Hall' : Forall (behaves (handlers s')) cs)
      by (unfold s'; by rewrite pop_handlers).
    assert (Hlt : (sid < length (saws w))%nat) by (by eapply lookup_lt_Some).
    destruct kind as [|flag inner].
    + simpl in Hm, Hf. destruct m as [|m]; [lia|].
      unfold settle. rewrite run_cons. simpl step_frame.
      rewrite (saw_next_call _ _ _ (fst c) (snd c) g Hs Hpend Hg).
      rewrite Hkind. simpl app. fold s'. fold (call_of sid c). fold w1.
      pose proof (IH w1 s' m f Hs1 Htk Hok' Hq' Hb' Hend' Hall'
                    ltac:(lia) ltac:(lia)) as R.
      unfold settle in R. rewrite R. unfold w1. simpl.
      rewrite list_insert_insert_eq, length_insert.
      unfold s'. rewrite children_pop, <- app_assoc. reflexivity.
    + destruct Hkind as (cb & a & Hbody & Hcb & Hflag & Hops & Hadv).
      simpl in Hm, Hf.
      destruct m as [|[|m]]; [lia|lia|]. destruct f as [|f]; [lia|].
      unfold settle. rewrite run_cons. simpl step_frame.
      rewrite (saw_next_call _ _ _ (fst c) (snd c) g Hs Hpend Hg).
      rewrite Hbody. simpl app. fold s'. fold (call_of sid c). fold w1.
      rewrite run_cons. simpl step_frame.
      rewrite (saw_nest_ok w1 sid s' flag cb a Hs1)
        by (rewrite Hcb, Hb'; unfold s'; by rewrite pop_handlers).
      simpl app. rewrite run_nil, Hcb.
      set (sc := child_saw sid s' flag inner).
      set (child := length (saws w)).
      assert (Hon : on_end sc = [LNext sid]).
      { unfold sc, child_saw. simpl. by destruct flag as [[|]|]. }
      assert (Hw2 : nested sc w1
                    = mkWorld (<[sid := s']> (saws w) ++ [sc]) [child]
                        (trace w ++ [call_of sid c])).
      { unfold nested, w1. simpl. by rewrite Htk, length_insert. }
      rewrite Hw2. clear Hw2.
      set (w2 := mkWorld (<[sid := s']> (saws w) ++ [sc]) []
                   (trace w ++ [call_of sid c])).
      change (event_loop (S f) _)
        with (match run f [FTick child] w2 with
              | Some (Done w') => event_loop f w'
              | r => r
              end).
      assert (Hsc : saws w2 !! child = Some sc).
      { unfold w2, child. simpl.
        rewrite lookup_app_r by (by rewrite length_insert).
        by rewrite length_insert, Nat.sub_diag. }
      pose proof (child_tick w2 child sc inner (f - (length inner + 2)) Hsc)
        as T.
      replace (length inner + 2 + (f - (length inner + 2)))%nat with f in T
        by lia.
      rewrite T; clear T.
      * rewrite Hon. simpl List.map.
        set (w3 := logs _ _).
        assert (Hs3 : saws w3 !! sid = Some s').
        { unfold w3, w2. simpl.
          rewrite list_lookup_insert_ne by (unfold child; lia).
          rewrite lookup_app_l by (by rewrite length_insert).
          by apply list_lookup_insert_eq. }
        pose proof (IH w3 s' (f - (length inner + 2))%nat f
                      Hs3 eq_refl Hok' Hq' Hb' Hend' Hall'
                      ltac:(lia) ltac:(lia)) as R.
        unfold settle in R. rewrite R. f_equal. f_equal.
        unfold w3, w2. simpl. rewrite !length_insert.
        f_equal.
        -- unfold child.
           rewrite (insert_app_r_alt _ _ (length (saws w)))
             by (rewrite length_insert; lia).
           rewrite length_insert, Nat.sub_diag. simpl.
           rewrite insert_app_l by (rewrite length_insert; lia).
           rewrite list_insert_insert_eq, <- app_assoc. simpl.
           unfold sc, s'. by rewrite children_pop, child_saw_pop.
        -- rewrite length_app, length_insert. simpl.
           rewrite <- !app_assoc. simpl. rewrite <- app_assoc. simpl.
           replace (length (saws w) + 1)%nat with (S (length (saws w))) by lia.
           reflexivity.
      * reflexivity.
      * unfold sc, child_saw. simpl. intros c0. destruct (step s'); congruence.
      * unfold sc, child_saw. simpl. rewrite Hb'. unfold s'.
        by rewrite pop_handlers.
Qed.
End Settle.

Lemma own_events_app (sid : nat) (t1 t2 : list event) :
  own_events sid (t1 ++ t2) = own_events sid t1 ++ own_events sid t2.
Proof. apply List.filter_app. Qed.

Lemma own_events_other (sid child : nat) (cs : list fcall) :
  child <> sid -> own_events sid (List.map (call_of child) cs) = [].
Proof.
  intros Hne. induction cs as [|c cs IH]; [reflexivity|].
  simpl. destruct (Nat.eqb_spec child sid); [congruence | exact IH].
Qed.

(** Of a run, the saw's own events are its calls in queue order and its
    "end". *)
Lemma own_events_run_trace (sid : nat) (cs : list (fcall * op_kind)) :
  forall child, (sid < child)%nat ->
    own_events sid (run_trace sid child cs)
    = List.map (fun ck => call_of sid (fst ck)) cs ++ [EvEnd sid].
Proof.
  induction cs as [|[c [|flag inner]] cs IH]; intros child Hlt; simpl.
  - by rewrite Nat.eqb_refl.
  - rewrite Nat.eqb_refl. f_equal. by apply IH.
  - rewrite Nat.eqb_refl. f_equal.
    destruct (Nat.eqb_spec child sid); [lia|].
    fold (own_events sid (List.map (call_of child) inner
                          ++ EvEnd child :: run_trace sid (S child) cs)).
    rewrite own_events_app, own_events_other by lia. simpl.
    destruct (Nat.eqb_spec child sid); [lia|].
    apply IH. lia.
Qed.

(** [child_saw] looks at the builder of the parent and at whether the
    parent has a cursor, nothing else. *)
Lemma children_same (sid : nat) (s1 s2 : saw) (cs : list (fcall * op_kind)) :
  builder s1 = builder s2 ->
  (step s1 = None <-> step s2 = None) ->
  children sid s1 cs = children sid s2 cs.
Proof.
  intros Hb Hst.
  assert (Hc : forall flag inner,
             child_saw sid s1 flag inner = child_saw sid s2 flag inner).
  { intros flag inner. unfold child_saw. rewrite Hb.
    destruct (step s1), (step s2); try reflexivity.
    - destruct Hst as [_ Hst]. by specialize (Hst eq_refl).
    - destruct Hst as [Hst _]. by specialize (Hst eq_refl). }
  induction cs as [|[x [|flag inner]] cs IH]; simpl; [done|done|].
  by rewrite IH, Hc.
Qed.

Lemma map_fst_zip {A B C : Type} (g : A -> C) (l : list A) :
  forall (k : list B),
    length k = length l ->
    List.map (fun ck => g (fst ck)) (zip l k) = List.map g l.
Proof.
  induction l as [|x l IH]; intros [|y k] Hlen; try discriminate;
    [reflexivity|].
  simpl. f_equal. apply IH. simpl in Hlen. lia.
Qed.

Lemma length_zip_same {A B : Type} (l : list A) :
  forall (k : list B), length k = length l -> length (zip l k) = length l.
Proof.
  induction l as [|x l IH]; intros [|y k] Hlen; try discriminate;
    [reflexivity|].
  simpl. f_equal. apply IH. simpl in Hlen. lia.
Qed.

(** ** The example session *)

Lemma readme_behaves : Forall (behaves adder) (zip readme_calls readme_kinds).
Proof.
  repeat constructor.
  - eexists. split; reflexivity.
  - eexists. split; [reflexivity|].
    exists nesting_callback, [VNum 7].
    repeat split; try reflexivity; try discriminate.
    + repeat constructor; try discriminate. eexists. reflexivity.
    + repeat constructor. eexists. split; reflexivity.
  - eexists. split; reflexivity.
Defined.

(** The nested [add] of the child runs between the [do] of the parent and
    the parent's following operation, in both modes. *)
Lemma adder_session (recording : bool) :
  session recording adder readme_calls 12
  = Some [EvBegin 0; EvCall 0 ["add"] [VNum 5]; EvCall 0 ["do"] [VNum 7];
          EvBegin 1; EvCall 1 ["add"] [VNum 7]; EvEnd 1;
          EvCall 0 ["math"; "neg"] [VNum 1]; EvEnd 0].
Proof. destruct recording; reflexivity. Qed.

(** * The properties *)

(** ** Interception *)

(** C1. The surface returned by [chain()] keeps its root (an object root
    keeps its keys, a root that is not an object is returned as it is) and
    [chain()] itself only schedules a tick.  For every operation [f] found at
    a non-empty path [p] of the surface, the returned surface holds at [p] the
    closure for [p].  Calling it with [args] returns the very surface it was
    called on; afterwards the queue of the chain is the queue before the call
    with the one record [{path: p, args}] behind it, and nothing else has
    changed: not the other fields of the saw, not the other saws, not the
    pending ticks, and not the trace of executed operations. *)
Theorem chain_queues_instead_of_calling
  (w w0 : world) (sid : nat) (s : saw) (ch : chained) :
  saws w !! sid = Some s ->
  saw_chain sid w = Some (ch, w0) ->
  (match handlers s with
   | Fn f => ch = Fn (Raw f)
   | Obj kvs => exists kvs', ch = Obj kvs' /\ List.map fst kvs' = List.map fst kvs
   | Val v => ch = Val v
   end)
  /\ saws w0 = saws w
  /\ ticks w0 = ticks w ++ [sid]
  /\ trace w0 = trace w
  /\ forall (p : path) (f : body) (args : list value) (w1 : world) (s1 : saw),
      p <> [] ->
      resolve (handlers s) p = Some (Own (Fn f)) ->
      saws w1 !! sid = Some s1 ->
      resolve ch p = Some (Own (Fn (Proxy sid p)))
      /\ exists w2 s2,
          fluent ch (p, args) w1 = Ok ch w2
          /\ saws w2 !! sid = Some s2
          /\ actions s2 = actions s1 ++ [Act p args]
          /\ handlers s2 = handlers s1
          /\ builder s2 = builder s1
          /\ step s2 = step s1
          /\ on_end s2 = on_end s1
          /\ (forall j, j <> sid -> saws w2 !! j = saws w1 !! j)
          /\ length (saws w2) = length (saws w1)
          /\ ticks w2 = ticks w1
          /\ trace w2 = trace w1.
Proof.
  intros Hs Hch. unfold saw_chain in Hch. rewrite Hs in Hch.
  injection Hch as <- <-.
  split; [|split; [reflexivity|split; [reflexivity|split; [reflexivity|]]]].
  - unfold chain_surface. destruct (handlers s) as [f|kvs|v]; simpl; try done.
    eexists. split; [reflexivity|].
    rewrite List.map_map. simpl. reflexivity.
  - intros p f args w1 s1 Hp Hf Hs1.
    assert (Hr : resolve (chain_surface sid (handlers s)) p
                 = Some (Own (Fn (Proxy sid p)))).
    { unfold chain_surface. rewrite (resolve_walk_fn _ _ _ _ _ Hf).
      simpl. by rewrite chain_visit_proxy. }
    split; [exact Hr|].
    exists (put_saw sid (set_actions (actions s1 ++ [Act p args]) s1) w1),
      (set_actions (actions s1 ++ [Act p args]) s1).
    unfold fluent. simpl. rewrite Hr. unfold proxy_call.
    rewrite (push_action_spec _ _ _ _ Hs1).
    repeat split.
    + by apply put_saw_lookup with (s := s1).
    + intros j Hj. apply put_saw_lookup_ne. congruence.
    + simpl. apply length_insert.
Qed.

Lemma chain_queues_instead_of_calling_witness :
  resolve (chain_surface 0 adder) ["math"; "neg"]
  = Some (Own (Fn (Proxy 0 ["math"; "neg"])))
  /\ exists w2 s2,
      fluent (chain_surface 0 adder) (["math"; "neg"], [VNum 3])
        queued_light_world
      = Ok (chain_surface 0 adder) w2
      /\ saws w2 !! 0%nat = Some s2
      /\ actions s2
         = [Act ["add"] [VNum 5]; Act ["math"; "neg"] [VNum 1]]
             ++ [Act ["math"; "neg"] [VNum 3]]
      /\ handlers s2 = adder
      /\ builder s2 = adder
      /\ step s2 = None
      /\ on_end s2 = []
      /\ (forall j, j <> 0%nat -> saws w2 !! j = saws queued_light_world !! j)
      /\ length (saws w2) = length (saws queued_light_world)
      /\ ticks w2 = ticks queued_light_world
      /\ trace w2 = trace queued_light_world.
Proof.
  refine (proj2 (proj2 (proj2 (proj2 (chain_queues_instead_of_calling
            queued_light_world (schedule 0 queued_light_world) 0
            (set_actions (List.map act_of adder_calls) (new_saw adder))
            (chain_surface 0 adder) _ _))))
          ["math"; "neg"] (fun _ => [CNext]) [VNum 3] queued_light_world
          (set_actions (List.map act_of adder_calls) (new_saw adder))
          _ _ _).
  - reflexivity.
  - reflexivity.
  - discriminate.
  - reflexivity.
  - reflexivity.
Defined.

(** ** Light mode runs the queue in call order *)

(** C2. Light mode.  [N] fluent calls issued on the surface of a fresh chain
    leave the [N] records in the queue in call order.  From there, every
    [next()] removes the record at the front and calls exactly its operation
    with the recorded arguments.  With operations that do not call the
    controller, [i] successive [next()] calls have run the first [i]
    operations in call order, once each, and left the other [N - i] records in
    the queue.  With operations that end by calling [next()] themselves, or
    that nest a callback, the first [next()] and the ticks it leads to run
    all [N] operations in call order, once each, and signal "end"; the queue
    is empty afterwards. *)
Theorem light_queue_runs_in_call_order
  (w : world) (sid : nat) (s : saw) (cs : list fcall) :
  saws w !! sid = Some s ->
  step s = None ->
  actions s = [] ->
  Forall (names_operation (handlers s)) cs ->
  let ch := chain_surface sid (handlers s) in
  let w1 := put_saw sid (set_actions (List.map act_of cs) s) w in
  fluent_all ch cs w = Ok ch w1
  /\ (forall (c : fcall) (rest : list fcall) (f : body),
        cs = c :: rest ->
        resolve (handlers s) (fst c) = Some (Own (Fn f)) ->
        saw_next sid w1
        = Ok (frames_of sid (f (snd c)))
             (log (call_of sid c)
                (put_saw sid (set_actions (List.map act_of rest) s) w)))
  /\ (Forall (passive (handlers s)) cs ->
      forall (i fuel : nat),
        (i <= length cs)%nat -> (i <= fuel)%nat ->
        run fuel (repeat (FCmd sid CNext) i) w1
        = Some (Done (logs (List.map (call_of sid) (take i cs))
                        (put_saw sid
                           (set_actions (List.map act_of (drop i cs)) s) w))))
  /\ (forall (kinds : list op_kind) (m f : nat),
        length kinds = length cs ->
        Forall (behaves (handlers s)) (zip cs kinds) ->
        builder s = handlers s ->
        on_end s = [] ->
        ticks w = [] ->
        (cost (zip cs kinds) <= m)%nat ->
        (cost (zip cs kinds) <= f)%nat ->
        let t := run_trace sid (length (saws w)) (zip cs kinds) in
        settle m f [FCmd sid CNext] w1
        = Some (Done (mkWorld
                        (<[sid := set_actions [] s]> (saws w)
                         ++ children sid s (zip cs kinds))
                        [] (trace w ++ t)))
        /\ own_events sid t = List.map (call_of sid) cs ++ [EvEnd sid]).
Proof.
  intros Hs Hst Hq Hops ch w1.
  assert (Hs1 : saws w1 !! sid = Some (set_actions (List.map act_of cs) s))
    by (by apply put_saw_lookup with (s := s)).
  split; [|split; [|split]].
  - unfold ch, w1. rewrite (fluent_all_queues _ _ _ _ _ Hs Hops).
    by rewrite Hq.
  - intros c rest f -> Hf.
    rewrite (saw_next_call _ _ _ (fst c) (snd c) f Hs1).
    + unfold pop. simpl. rewrite Hst. unfold w1. simpl.
      by rewrite put_saw_put_saw.
    + unfold pending, pop. simpl. by rewrite Hst.
    + exact Hf.
  - intros Hpas i fuel Hi Hfuel.
    pose proof (drain_light_passive sid (take i cs)
                  (List.map act_of (drop i cs)) w1
                  (set_actions (List.map act_of cs) s) [] (fuel - i)) as D.
    rewrite length_take, Nat.min_l, app_nil_r in D by exact Hi.
    replace (i + (fuel - i))%nat with fuel in D by lia.
    rewrite D.
    + rewrite run_nil. unfold w1. by rewrite put_saw_put_saw.
    + exact Hs1.
    + exact Hst.
    + simpl. rewrite <- List.map_app. by rewrite take_drop.
    + by apply Forall_take.
  - intros kinds m f Hlen Hall Hb Hend Htk Hm Hf t. split.
    + rewrite (settle_chain sid (zip cs kinds) w1
                 (set_actions (List.map act_of cs) s) m f Hs1 Htk).
      * rewrite (consume_light _ (set_actions (List.map act_of cs) s) Hst).
        simpl. rewrite drop_ge
          by (rewrite length_map, (length_zip_same _ _ Hlen); lia).
        unfold w1. simpl. rewrite list_insert_insert_eq, length_insert.
        by rewrite (children_same sid _ s).
      * intros c. simpl. by rewrite Hst.
      * unfold remaining. simpl. rewrite Hst.
        by rewrite (map_fst_zip act_of _ _ Hlen).
      * exact Hb.
      * exact Hend.
      * exact Hall.
      * exact Hm.
      * exact Hf.
    + unfold t. rewrite own_events_run_trace
        by (by eapply lookup_lt_Some).
      by rewrite (map_fst_zip (call_of sid) _ _ Hlen).
Qed.

Lemma light_queue_runs_in_call_order_witness :
  (fluent_all (chain_surface 0 adder) peek_calls light_world
   = Ok (chain_surface 0 adder)
       (put_saw 0 (set_actions (List.map act_of peek_calls) (new_saw adder))
          light_world)
   /\ run 2 (repeat (FCmd 0%nat CNext) 2)
        (put_saw 0 (set_actions (List.map act_of peek_calls) (new_saw adder))
           light_world)
      = Some (Done (logs [EvCall 0 ["peek"] [VNum 1]; EvCall 0 ["peek"] [VNum 2]]
                      (put_saw 0 (set_actions [] (new_saw adder)) light_world))))
  /\ settle 8 8 [FCmd 0%nat CNext]
       (put_saw 0 (set_actions (List.map act_of readme_calls) (new_saw adder))
          light_world)
     = Some (Done (mkWorld
                     [set_actions [] (new_saw adder);
                      child_done (child_saw 0 (new_saw adder) None
                                    [(["add"], [VNum 7])])]
                     []
                     [EvCall 0 ["add"] [VNum 5]; EvCall 0 ["do"] [VNum 7];
                      EvBegin 1; EvCall 1 ["add"] [VNum 7]; EvEnd 1;
                      EvCall 0 ["math"; "neg"] [VNum 1]; EvEnd 0])).
Proof.
  split.
  - assert (Hops : Forall (names_operation adder) peek_calls).
    { repeat constructor; try discriminate; eexists; reflexivity. }
    assert (Hpas : Forall (passive adder) peek_calls).
    { repeat constructor; eexists; split; reflexivity. }
    pose proof (light_queue_runs_in_call_order light_world 0 (new_saw adder)
                  peek_calls eq_refl eq_refl eq_refl Hops) as T.
    destruct T as (T1 & _ & T2 & _).
    split; [exact T1|].
    exact (T2 Hpas 2%nat 2%nat (le_n 2) (le_n 2)).
  - assert (Hops : Forall (names_operation adder) readme_calls).
    { repeat constructor; try discriminate; eexists; reflexivity. }
    pose proof (light_queue_runs_in_call_order light_world 0 (new_saw adder)
                  readme_calls eq_refl eq_refl eq_refl Hops) as T.
    destruct T as (_ & _ & _ & T3).
    exact (proj1 (T3 readme_kinds 8%nat 8%nat eq_refl readme_behaves
                    eq_refl eq_refl eq_refl (le_n 8) (le_n 8))).
Defined.

(** ** [down] *)

(** C3, amended. In recording mode with the cursor at [c >= 0], [down(name)]
    looks from the cursor on for the first record that is not a trap
    registered at or before [c] and whose path, joined with "/", equals the
    joined name.  The cursor goes to that record, or to the length of the
    queue when there is none.  In both cases, when the record just before the
    new cursor is a trap record, the cursor is set to the registration step of
    that trap and its callback is called (and [next] is not); otherwise
    [next()] is called with the cursor where the search left it. *)
Theorem down_searches_then_fires_or_resumes
  (w : world) (sid : nat) (s : saw) (c : Z) (n : name) :
  saws w !! sid = Some s ->
  step s = Some c ->
  0 <= c ->
  (forall x, down_match c (join (name_path n)) x = true <->
             match x with
             | Act p _ => join p = join (name_path n)
             | Trap p t _ => c < t /\ join p = join (name_path n)
             end)
  /\ (forall i x, first_match s c n i x ->
                  down_cursor s c n = c + Z.of_nat i)
  /\ (no_match s c n -> down_cursor s c n = Z.of_nat (length (actions s)))
  /\ (forall p t cb,
        idx (actions s) (down_cursor s c n - 1) = Some (Trap p t cb) ->
        saw_down sid n w
        = Ok (frames_of sid cb)
             (log (EvTrap sid p t) (put_saw sid (set_step (Some t) s) w)))
  /\ ((forall p t cb,
         idx (actions s) (down_cursor s c n - 1) <> Some (Trap p t cb)) ->
      saw_down sid n w
      = Ok [FCmd sid CNext]
           (put_saw sid (set_step (Some (down_cursor s c n)) s) w)).
Proof.
  intros Hs Hst Hc.
  split; [intros x; apply down_match_spec|].
  split; [intros i x; by apply down_cursor_found|].
  split; [by apply down_cursor_absent|].
  split; [intros p t cb; by apply saw_down_trap|].
  by apply saw_down_next.
Qed.

Lemma down_searches_then_fires_or_resumes_witness :
  down_cursor loop_saw 1 (NStr "again") = 2
  /\ saw_down 0 (NStr "again") loop_world
     = Ok [FCmd 0%nat CNext]
          (log (EvTrap 0 ["again"] 0)
             (put_saw 0 (set_step (Some 0) loop_saw) loop_world)).
Proof.
  pose proof (down_searches_then_fires_or_resumes loop_world 0 loop_saw 1
                (NStr "again") eq_refl eq_refl ltac:(lia)) as T.
  destruct T as (_ & _ & T1 & T2 & _).
  split.
  - apply T1. intros i y. destruct i as [|i]; simpl.
    + intros [= <-]. reflexivity.
    + discriminate.
  - exact (T2 ["again"] 0 [CNext] eq_refl).
Defined.

(** C3 as stated fails here: nothing from the cursor on matches [again]
    (the trap was registered before the cursor), yet [down] does not leave the
    cursor at the end of the queue: the record before the end is the trap, so
    the cursor goes back to [0] and the callback of the trap is called. *)
Lemma down_without_match_fires_trap :
  no_match loop_saw 1 (NStr "again")
  /\ saw_down 0 (NStr "again") loop_world
     = Ok (frames_of 0 [CNext])
          (log (EvTrap 0 ["again"] 0)
             (put_saw 0 (set_step (Some 0) loop_saw) loop_world))
  /\ ~ (exists k w' s',
          saw_down 0 (NStr "again") loop_world = Ok k w'
          /\ saws w' !! 0%nat = Some s'
          /\ step s' = Some (Z.of_nat (length (actions loop_saw)))).
Proof.
  split; [|split].
  - intros i y. destruct i as [|i]; simpl.
    + intros [= <-]. reflexivity.
    + discriminate.
  - reflexivity.
  - intros (k & w' & s' & H & Hs' & Hst).
    injection H as <- <-. simpl in Hs'. injection Hs' as <-.
    simpl in Hst. discriminate.
Qed.

(** ** [nest] and the parent *)

(** C4, amended. A [nest] whose callback calls operations of the surface
    returns without any event and without putting anything on the call
    stack, so whatever the nesting operation does after it runs at once.  The
    parent is as it was; the child holds the callback's calls and waits for
    its tick.  Unless [false] was passed for [autoAdvance], the parent's
    [next] is the one listener of the child's "end", so every "end" of the
    child puts exactly one call of the parent's [next] on the stack; with
    [false] there is no listener and "end" puts nothing there.  When the
    child's operations end by calling [next()], the child's tick runs "begin",
    the child's calls in order and "end" without touching the parent, and
    only then is the parent's [next] called. *)
Theorem nest_resumes_parent_on_child_end
  (w : world) (sid : nat) (s : saw) (flag : option bool)
  (cb : list value -> list fcall) (args : list value) :
  saws w !! sid = Some s ->
  Forall (names_operation (builder s)) (cb args) ->
  let child := length (saws w) in
  exists (w' : world) (sc : saw),
    saw_nest sid flag cb args w = Ok [] w'
    /\ (forall (k : list frame) (m : nat),
          run (S m) (FCmd sid (CNest flag cb args) :: k) w = run m k w')
    /\ saws w' !! sid = Some s
    /\ saws w' !! child = Some sc
    /\ length (saws w') = S (length (saws w))
    /\ (forall j, (j < length (saws w))%nat -> saws w' !! j = saws w !! j)
    /\ trace w' = trace w
    /\ ticks w' = ticks w ++ [child]
    /\ actions sc = List.map act_of (cb args)
    /\ handlers sc = builder s
    /\ (flag = Some false -> on_end sc = [])
    /\ (flag <> Some false -> on_end sc = [LNext sid])
    /\ (forall (w2 : world) (s2 : saw),
          saws w2 !! child = Some s2 ->
          on_end s2 = on_end sc ->
          exists w3,
            emit_end child w2
            = Ok (if autonext flag then [FCmd sid CNext] else []) w3
            /\ trace w3 = trace w2 ++ [EvEnd child]
            /\ saws w3 = saws w2
            /\ ticks w3 = ticks w2)
    /\ (Forall (self_advancing (builder s)) (cb args) ->
        forall (m : nat),
        exists w3,
          run (length (cb args) + 2 + m) [FTick child] w'
          = run m (if autonext flag then [FCmd sid CNext] else []) w3
          /\ trace w3
             = trace w ++ EvBegin child
                 :: List.map (call_of child) (cb args) ++ [EvEnd child]
          /\ saws w3 !! sid = Some s
          /\ ticks w3 = ticks w').
Proof.
  intros Hs Hops child.
  set (sc := child_saw sid s flag (cb args)).
  set (w' := nested sc w).
  assert (Hlt : (sid < length (saws w))%nat) by (by eapply lookup_lt_Some).
  assert (Hsc : saws w' !! child = Some sc).
  { unfold w', nested, child. simpl. rewrite lookup_app_r by lia.
    by rewrite Nat.sub_diag. }
  assert (Hpar : saws w' !! sid = Some s).
  { unfold w', nested. simpl. by rewrite lookup_app_l. }
  assert (Hres : List.map listener_frame (on_end sc)
                 = if autonext flag then [FCmd sid CNext] else []).
  { unfold sc, child_saw. simpl. by destruct (autonext flag). }
  assert (Hnest : saw_nest sid flag cb args w = Ok [] w')
    by (by apply saw_nest_ok).
  exists w', sc.
  split; [exact Hnest|].
  split.
  { intros k m. rewrite run_cons. simpl step_frame. by rewrite Hnest. }
  split; [exact Hpar|]. split; [exact Hsc|].
  split; [unfold w', nested; simpl; rewrite length_app; simpl; lia|].
  split.
  { intros j Hj. unfold w', nested. simpl. by rewrite lookup_app_l. }
  split; [reflexivity|]. split; [reflexivity|].
  split; [reflexivity|]. split; [reflexivity|].
  split; [by intros ->|].
  split.
  { intros Hne. unfold sc, child_saw. simpl.
    destruct flag as [[|]|]; simpl; try done. }
  split.
  { intros w2 s2 Hs2 Hon. unfold emit_end. rewrite Hs2, Hon, Hres.
    eexists. split; [reflexivity|]. done. }
  intros Hadv m. eexists. split.
  - rewrite <- Hres.
    apply child_tick; [exact Hsc | reflexivity | | exact Hadv].
    unfold sc, child_saw. simpl. intros c. destruct (step s); congruence.
  - split; [|split].
    + simpl. reflexivity.
    + simpl. rewrite list_lookup_insert_ne by (unfold child; lia).
      exact Hpar.
    + reflexivity.
Qed.

Lemma nest_resumes_parent_on_child_end_witness :
  exists (w' : world) (sc : saw),
    saw_nest 0 None nesting_callback [VNum 7] light_world = Ok [] w'
    /\ saws w' !! 1%nat = Some sc
    /\ actions sc = [Act ["add"] [VNum 7]]
    /\ on_end sc = [LNext 0]
    /\ ticks w' = [1%nat]
    /\ exists w3,
        run 4 [FTick 1%nat] w' = run 1 [FCmd 0%nat CNext] w3
        /\ trace w3 = [EvBegin 1; EvCall 1 ["add"] [VNum 7]; EvEnd 1]
        /\ saws w3 !! 0%nat = Some (new_saw adder).
Proof.
  assert (Hops : Forall (names_operation adder) (nesting_callback [VNum 7])).
  { repeat constructor; try discriminate; eexists; reflexivity. }
  assert (Hadv : Forall (self_advancing adder) (nesting_callback [VNum 7])).
  { repeat constructor; eexists; split; reflexivity. }
  pose proof (nest_resumes_parent_on_child_end light_world 0
                (new_saw adder) None nesting_callback [VNum 7]
                eq_refl Hops) as T.
  destruct T as (w' & sc & T1 & _ & _ & T2 & _ & _ & _ & T3 & T4 & _ & _
                 & T5 & _ & T6).
  exists w', sc.
  split; [exact T1|]. split; [exact T2|]. split; [exact T4|].
  split; [apply T5; discriminate|]. split; [exact T3|].
  destruct (T6 Hadv 1%nat) as (w3 & R1 & R2 & R3 & _).
  exists w3. split; [exact R1|]. split; [exact R2 | exact R3].
Defined.

(** C4 as stated fails here: [fork] passes no [false] to [nest], yet [add],
    the parent's action after [fork], runs before the child has even begun,
    because [fork] itself goes on to call [next()]; the parent signals "end"
    before the child does.  When the child ends, the parent's [next] is
    called as registered, and the parent signals "end" a second time. *)
Lemma nest_does_not_hold_the_parent :
  (forall recording,
     session recording eager eager_calls 12
     = Some [EvBegin 0; EvCall 0 ["fork"] [VNum 7]; EvCall 0 ["add"] [VNum 5];
             EvEnd 0; EvBegin 1; EvCall 1 ["add"] [VNum 7]; EvEnd 1; EvEnd 0])
  /\ resolve eager ["fork"]
     = Some (Own (Fn (fun args => [CNest None nesting_callback args; CNext]))).
Proof.
  split; [|reflexivity]. intros recording. destruct recording; reflexivity.
Qed.

(** ** Replay from the start *)

(** C5. Recording mode.  A [next()], whether it returns or throws, leaves
    the queue of its saw as it was, whatever the cursor; the cursor moves on
    by one (where [saw.step++] is exact).  Take a chain whose [N] operations end by calling [next()] or nest
    a callback.  Started at cursor [0], it runs its [N] records in order and
    signals "end"; afterwards the queue is the one it started with.
    [jump(0)] then runs the [N] operations again: in both runs the calls of
    the chain are the same operations, at the same paths, with the same
    arguments, in the same order, followed by "end". *)
Theorem recording_replays_from_zero
  (w : world) (sid : nat) (s : saw) (cs : list fcall) (kinds : list op_kind)
  (m f : nat) :
  saws w !! sid = Some s ->
  ticks w = [] ->
  step s = Some 0 ->
  actions s = List.map act_of cs ->
  builder s = handlers s ->
  on_end s = [] ->
  length kinds = length cs ->
  Forall (behaves (handlers s)) (zip cs kinds) ->
  (cost (zip cs kinds) <= m)%nat ->
  (cost (zip cs kinds) <= f)%nat ->
  let cks := zip cs kinds in
  let s1 := set_step (Some (Z.of_nat (length cs) + 1)) s in
  let t1 := run_trace sid (length (saws w)) cks in
  let w1 := mkWorld (<[sid := s1]> (saws w) ++ children sid s cks) []
              (trace w ++ t1) in
  let t2 := run_trace sid (length (saws w1)) cks in
  let w2 := mkWorld (saws w1 ++ children sid s cks) [] (trace w1 ++ t2) in
  (forall (w0 w' : world) (j : nat) (s' : saw) (c : Z),
     saws w0 !! j = Some s' ->
     step s' = Some c ->
     res_world (saw_next j w0) = Some w' ->
     exists s'',
       saws w' !! j = Some s''
       /\ actions s'' = actions s'
       /\ (exact_step c -> step s'' = Some (c + 1)))
  /\ settle m f [FCmd sid CNext] w = Some (Done w1)
  /\ saws w1 !! sid = Some s1
  /\ actions s1 = actions s
  /\ settle (S m) f [FCmd sid (CJump 0)] w1 = Some (Done w2)
  /\ own_events sid t1 = List.map (call_of sid) cs ++ [EvEnd sid]
  /\ own_events sid t2 = List.map (call_of sid) cs ++ [EvEnd sid].
Proof.
  intros Hs Htk Hst Hq Hb Hend Hlen Hall Hm Hf cks s1 t1 w1 t2 w2.
  assert (Hlt : (sid < length (saws w))%nat) by (by eapply lookup_lt_Some).
  assert (Hn : length cks = length cs) by (by apply length_zip_same).
  assert (Hs1 : saws w1 !! sid = Some s1).
  { unfold w1. simpl. rewrite lookup_app_l by (by rewrite length_insert).
    by apply list_lookup_insert_eq. }
  assert (Hrun : forall (w0 : world) (s0 : saw),
             saws w0 !! sid = Some s0 ->
             ticks w0 = [] ->
             s0 = set_step (Some 0) s ->
             settle m f [FCmd sid CNext] w0
             = Some (Done (mkWorld
                             (<[sid := s1]> (saws w0) ++ children sid s cks)
                             []
                             (trace w0 ++ run_trace sid (length (saws w0)) cks)))).
  { intros w0 s0 Hs0 Htk0 ->.
    rewrite (settle_chain sid cks w0 (set_step (Some 0) s) m f Hs0 Htk0).
    - rewrite Hn, (consume_recording _ (set_step (Some 0) s) 0 eq_refl).
      rewrite (children_same sid _ s) by (simpl; by rewrite ?Hst).
      do 4 f_equal. unfold s1, set_step. simpl. do 3 f_equal. lia.
    - intros c [= <-]. lia.
    - unfold remaining, cks. simpl. rewrite drop_0, Hq.
      by rewrite (map_fst_zip act_of _ _ Hlen).
    - exact Hb.
    - exact Hend.
    - exact Hall.
    - exact Hm.
    - exact Hf. }
  assert (Hs0 : set_step (Some 0) s = s)
    by (destruct s; simpl in Hst; by subst).
  split; [|split; [|split; [|split; [|split; [|split]]]]].
  - intros w0 w' j s' c Hj Hc Hw'. exists (set_step (Some (c + 1)) s').
    split; [by apply saw_next_keeps_queue with (w := w0) | done].
  - rewrite (Hrun w s Hs Htk); [reflexivity | by rewrite Hs0].
  - exact Hs1.
  - reflexivity.
  - unfold settle. rewrite run_cons. simpl step_frame.
    unfold saw_jump. rewrite Hs1. simpl step. cbv beta iota. simpl app.
    fold (settle m f [FCmd sid CNext] (put_saw sid (set_step (Some 0) s1) w1)).
    rewrite (Hrun _ (set_step (Some 0) s1)).
    + unfold w2. simpl. rewrite !list_insert_insert_eq, !length_insert.
      do 3 f_equal.
      rewrite insert_app_l by (by rewrite length_insert).
      by rewrite list_insert_insert_eq.
    + by apply put_saw_lookup with (s := s1).
    + reflexivity.
    + reflexivity.
  - unfold t1, cks. rewrite own_events_run_trace by exact Hlt.
    by rewrite (map_fst_zip (call_of sid) _ _ Hlen).
  - unfold t2, cks. rewrite own_events_run_trace
      by (unfold w1; simpl; rewrite length_app, length_insert; lia).
    by rewrite (map_fst_zip (call_of sid) _ _ Hlen).
Qed.

Lemma recording_replays_from_zero_witness :
  settle 8 8 [FCmd 0%nat CNext] readme_recorded_world
  = Some (Done (mkWorld
                  [set_step (Some 4)
                     (set_actions (List.map act_of readme_calls)
                        (upgradeChainsaw (new_saw adder)));
                   child_done (child_saw 0 (upgradeChainsaw (new_saw adder))
                                 None [(["add"], [VNum 7])])]
                  []
                  [EvCall 0 ["add"] [VNum 5]; EvCall 0 ["do"] [VNum 7];
                   EvBegin 1; EvCall 1 ["add"] [VNum 7]; EvEnd 1;
                   EvCall 0 ["math"; "neg"] [VNum 1]; EvEnd 0]))
  /\ own_events 0 (run_trace 0 1 (zip readme_calls readme_kinds))
     = List.map (call_of 0) readme_calls ++ [EvEnd 0]
  /\ own_events 0 (run_trace 0 2 (zip readme_calls readme_kinds))
     = List.map (call_of 0) readme_calls ++ [EvEnd 0].
Proof.
  pose proof (recording_replays_from_zero readme_recorded_world 0
                (set_actions (List.map act_of readme_calls)
                   (upgradeChainsaw (new_saw adder)))
                readme_calls readme_kinds 8 8
                eq_refl eq_refl eq_refl eq_refl eq_refl eq_refl eq_refl
                readme_behaves (le_n 8) (le_n 8)) as T.
  destruct T as (_ & T1 & _ & _ & _ & T2 & T3).
  split; [exact T1 | split; [exact T2 | exact T3]].
Defined.

(** ** End of the queue and trap records *)

(** C6, amended. [next()] signals "end" exactly when there is no record at
    the place it reads: in light mode when the queue is empty, in recording
    mode when the cursor lies outside the queue, before its start or at or
    past its end.  For a cursor that is not negative this is when no record
    is left from the cursor on.  The listeners of "end" are called, the queue
    is as it was.  A trap record is consumed by [next()] without any call: no
    operation, no callback, no event, nothing left on the call stack.  No
    step other than [down] records a trap firing. *)
Theorem next_signals_end_iff_slot_empty
  (w : world) (sid : nat) (s : saw) :
  saws w !! sid = Some s ->
  let ends := exists k w', saw_next sid w = Ok k w'
                           /\ trace w' = trace w ++ [EvEnd sid] in
  (step s = None -> (ends <-> actions s = []))
  /\ (forall c, step s = Some c ->
        (ends <-> c < 0 \/ Z.of_nat (length (actions s)) <= c)
        /\ (0 <= c -> (ends <-> drop (Z.to_nat c) (actions s) = [])))
  /\ (ends ->
      exists w' s',
        saw_next sid w = Ok (List.map listener_frame (on_end s)) w'
        /\ trace w' = trace w ++ [EvEnd sid]
        /\ ticks w' = ticks w
        /\ saws w' !! sid = Some s'
        /\ actions s' = actions s
        /\ (forall j, j <> sid -> saws w' !! j = saws w !! j))
  /\ (forall p t cb,
        pending s = Some (Trap p t cb) ->
        exists w' s',
          saw_next sid w = Ok [] w'
          /\ trace w' = trace w
          /\ ticks w' = ticks w
          /\ saws w' !! sid = Some s'
          /\ popped s s'
          /\ (forall j, j <> sid -> saws w' !! j = saws w !! j))
  /\ (forall f k w',
        step_frame f w = Ok k w' ->
        (forall sid' n, f <> FCmd sid' (CDown n)) ->
        exists evs, trace w' = trace w ++ evs
                    /\ Forall (fun e => is_trap_event e = false) evs).
Proof.
  intros Hs ends.
  assert (He : ends <-> pending s = None) by (by apply saw_next_ends).
  split; [|split; [|split; [|split]]].
  - intros Hst. rewrite He, pending_none. by rewrite Hst.
  - intros c Hst. split.
    + rewrite He, pending_none. by rewrite Hst.
    + intros Hc. rewrite He, pending_none, Hst.
      split.
      * intros [Hneg|Hge]; [lia|]. apply drop_ge. lia.
      * intros Hd. right.
        destruct (Z.le_gt_cases (Z.of_nat (length (actions s))) c) as [H|H];
          [exact H|].
        exfalso. assert (Hl : length (drop (Z.to_nat c) (actions s)) = 0%nat)
          by (by rewrite Hd).
        rewrite length_drop in Hl. lia.
  - intros Hends. apply He in Hends.
    exists (log (EvEnd sid) (put_saw sid (snd (pop s)) w)), (snd (pop s)).
    split; [by apply saw_next_end|].
    split; [reflexivity|]. split; [reflexivity|].
    split; [by apply put_saw_lookup with (s := s)|].
    split.
    + apply pending_none in Hends. unfold pop.
      destruct (step s) as [c|]; simpl; [reflexivity|]. by rewrite Hends.
    + intros j Hj. simpl. apply list_lookup_insert_ne. congruence.
  - intros p t cb Hp.
    exists (put_saw sid (snd (pop s)) w), (snd (pop s)).
    split; [by apply saw_next_trap with (p := p) (t := t) (cb := cb)|].
    split; [reflexivity|]. split; [reflexivity|].
    split; [by apply put_saw_lookup with (s := s)|].
    split; [apply pop_popped|].
    intros j Hj. simpl. apply list_lookup_insert_ne. congruence.
  - intros f k w'. apply step_frame_trap_events.
Qed.

Lemma next_signals_end_iff_slot_empty_witness :
  (exists w' s',
     saw_next 0 light_world = Ok [] w'
     /\ trace w' = [EvEnd 0]
     /\ saws w' !! 0%nat = Some s'
     /\ actions s' = [])
  /\ exists w' s',
      saw_next 0 trap_world = Ok [] w'
      /\ trace w' = []
      /\ saws w' !! 0%nat = Some s'
      /\ step s' = Some 1
      /\ actions s' = [Trap ["add"] 0 [CNext]; Act ["add"] [VNum 5]].
Proof.
  split.
  - pose proof (next_signals_end_iff_slot_empty light_world 0
                  (new_saw adder) eq_refl) as T.
    destruct T as (T0 & _ & T & _).
    destruct (T (proj2 (T0 eq_refl) eq_refl))
      as (w' & s' & R1 & R2 & _ & R3 & R4 & _).
    exists w', s'. repeat split; assumption.
  - pose proof (next_signals_end_iff_slot_empty trap_world 0 _ eq_refl) as T.
    destruct T as (_ & _ & _ & T & _).
    destruct (T ["add"] 0 [CNext] eq_refl)
      as (w' & s' & R1 & R2 & _ & R3 & (_ & _ & _ & R4 & R5) & _).
    exists w', s'. repeat split; assumption.
Defined.

(** C6 as stated fails here.  Both records of the chain have run and the
    cursor is at [2]; [jump(-1)] puts the cursor before the queue, where
    [next()] finds nothing and signals "end" although both records are still
    ahead of the cursor.  The cursor is [0] afterwards, and the [next()] that
    follows runs the first record: it was pending when "end" was
    signalled. *)
Lemma end_signalled_with_records_ahead :
  exists w' s',
    run 2 [FCmd 0%nat (CJump (-1))] replayed_world = Some (Done w')
    /\ trace w' = [EvEnd 0]
    /\ saws w' !! 0%nat = Some s'
    /\ step s' = Some 0
    /\ actions s' = [Act ["add"] [VNum 5]; Act ["math"; "neg"] [VNum 1]]
    /\ exists w'',
        saw_next 0 w' = Ok [FCmd 0%nat CNext] w''
        /\ trace w'' = [EvEnd 0; EvCall 0 ["add"] [VNum 5]].
Proof.
  eexists _, _. split; [reflexivity|].
  split; [reflexivity|]. split; [reflexivity|]. split; [reflexivity|].
  split; [reflexivity|].
  eexists. split; reflexivity.
Qed.

(** ** Replay methods before [record] *)

(** C7. On a chain whose recording was never enabled (the state in which
    [chainsaw.light] builds it), [trap], [down] and [jump] throw the
    "call record() first" error; the world is the one before the call, so
    nothing was queued, the cursor is still undefined and no operation ran;
    the exception unwinds the whole call stack.  Such a chain stays without
    a cursor through every step of the driver other than its own
    [record()]. *)
Theorem replay_before_record_throws
  (w : world) (sid : nat) (s : saw) (n : name) (cb : prog) (z : Z)
  (k : list frame) (fuel : nat) :
  saws w !! sid = Some s ->
  step s = None ->
  (forall (b : surface) (w0 : world),
     exists ch w', chainsaw_light b w0 = Some (length (saws w0), ch, w')
                   /\ saws w' !! length (saws w0) = Some (new_saw b)
                   /\ step (new_saw b) = None)
  /\ (forall (f : frame) (w' : world),
        res_world (step_frame f w) = Some w' ->
        f <> FCmd sid CRecord ->
        option_map step (saws w' !! sid) = Some None)
  /\ saw_trap sid n cb w = Raise (UsageError record_first) w
  /\ saw_down sid n w = Raise (UsageError record_first) w
  /\ saw_jump sid z w = Raise (UsageError record_first) w
  /\ run (S fuel) (FCmd sid (CTrap n cb) :: k) w
     = Some (Threw (UsageError record_first) w)
  /\ run (S fuel) (FCmd sid (CDown n) :: k) w
     = Some (Threw (UsageError record_first) w)
  /\ run (S fuel) (FCmd sid (CJump z) :: k) w
     = Some (Threw (UsageError record_first) w).
Proof.
  intros Hs Hst. split.
  - intros b w0. unfold chainsaw_light, saw_chain. simpl.
    rewrite lookup_app_r by lia. rewrite Nat.sub_diag. simpl.
    eexists _, _. split; [reflexivity|]. split; [|reflexivity].
    simpl. rewrite lookup_app_r by lia. by rewrite Nat.sub_diag.
  - split.
    + intros f w' H Hf. apply step_frame_keeps_light with (f := f) (w := w);
        [rewrite Hs; simpl; by rewrite Hst | exact H | exact Hf].
    + simpl. unfold saw_trap, saw_down, saw_jump. rewrite Hs, Hst. done.
Qed.

Lemma replay_before_record_throws_witness :
  saw_trap 0 (NStr "add") [CNext] light_world
  = Raise (UsageError record_first) light_world
  /\ saw_down 0 (NStr "add") light_world
     = Raise (UsageError record_first) light_world
  /\ saw_jump 0 0 light_world = Raise (UsageError record_first) light_world
  /\ run 1 [FCmd 0%nat (CJump 0); FCmd 0%nat CNext] light_world
     = Some (Threw (UsageError record_first) light_world).
Proof.
  pose proof (replay_before_record_throws light_world 0 (new_saw adder)
                (NStr "add") [CNext] 0 [FCmd 0%nat CNext] 0 eq_refl eq_refl) as T.
  destruct T as (_ & _ & T1 & T2 & T3 & _ & _ & T4).
  repeat split; assumption.
Defined.

(** ** Unresolved operations *)

(** C8, amended. [next()] walks the path of the record with ordinary
    property reads and calls [apply] on what it finds.  When the walk fails
    on [undefined] or [null], or ends at [undefined], [null], a datum, or an
    object without a function as its own [apply] property, [next()] throws a
    [TypeError]: the record has been consumed, no operation has run, nothing
    is signalled, and the exception unwinds the whole call stack.  Nothing is
    thrown when the path names something that can be called without being an
    operation of the surface: the [toString] or [valueOf] that every object
    inherits is called and the record is gone without a trace; an object
    with an [apply] operation of its own has that operation called as a
    method. *)
Theorem unresolved_action_throws
  (w : world) (sid : nat) (s : saw) (p : path) (args : list value) :
  saws w !! sid = Some s ->
  pending s = Some (Act p args) ->
  (uncallable (resolve (handlers s) p) ->
   exists w' s',
     saw_next sid w = Raise TypeError w'
     /\ (forall fuel k,
           run (S fuel) (FCmd sid CNext :: k) w = Some (Threw TypeError w'))
     /\ trace w' = trace w
     /\ ticks w' = ticks w
     /\ saws w' !! sid = Some s'
     /\ popped s s'
     /\ (forall j, j <> sid -> saws w' !! j = saws w !! j))
  /\ (resolve (handlers s) p = Some (Host Inert) ->
      exists w' s',
        saw_next sid w = Ok [] w'
        /\ trace w' = trace w
        /\ ticks w' = ticks w
        /\ saws w' !! sid = Some s'
        /\ popped s s')
  /\ (forall kvs f,
        resolve (handlers s) p = Some (Own (Obj kvs)) ->
        assoc "apply" kvs = Some (Fn f) ->
        exists w' s',
          saw_next sid w = Ok (frames_of sid (f [VSurface; VArr args])) w'
          /\ trace w' = trace w ++ [EvMethod sid p args]
          /\ ticks w' = ticks w
          /\ saws w' !! sid = Some s'
          /\ popped s s').
Proof.
  intros Hs Hp.
  assert (Hlook : saws (put_saw sid (snd (pop s)) w) !! sid
                  = Some (snd (pop s)))
    by (by apply put_saw_lookup with (s := s)).
  unfold pending in Hp.
  split; [|split].
  - intros [Hnf Hna].
    assert (H : saw_next sid w = Raise TypeError (put_saw sid (snd (pop s)) w)).
    { unfold saw_next. rewrite Hs, Hp.
      destruct (resolve (handlers s) p) as [[[f|kvs|v]|h]|] eqn:E;
        simpl in Hnf; try done.
      - simpl. specialize (Hna kvs eq_refl).
        destruct (assoc "apply" kvs) as [[f|?|v]|]; try done.
        by destruct v.
      - simpl. by destruct v. }
    exists (put_saw sid (snd (pop s)) w), (snd (pop s)).
    split; [exact H|]. split.
    { intros fuel k. rewrite run_cons. simpl step_frame. by rewrite H. }
    split; [reflexivity|]. split; [reflexivity|].
    split; [exact Hlook|]. split; [apply pop_popped|].
    intros j Hj. simpl. apply list_lookup_insert_ne. congruence.
  - intros Hr.
    exists (put_saw sid (snd (pop s)) w), (snd (pop s)).
    split; [unfold saw_next; by rewrite Hs, Hp, Hr|].
    split; [reflexivity|]. split; [reflexivity|].
    split; [exact Hlook | apply pop_popped].
  - intros kvs f Hr Ha.
    exists (log (EvMethod sid p args) (put_saw sid (snd (pop s)) w)),
      (snd (pop s)).
    split; [unfold saw_next; rewrite Hs, Hp, Hr; simpl; by rewrite Ha|].
    split; [reflexivity|]. split; [reflexivity|].
    split; [exact Hlook | apply pop_popped].
Qed.

Lemma unresolved_action_throws_witness :
  exists w' s',
    saw_next 0 missing_world = Raise TypeError w'
    /\ trace w' = []
    /\ saws w' !! 0%nat = Some s'
    /\ actions s' = [].
Proof.
  assert (U : uncallable (resolve adder ["sub"])).
  { split; [discriminate|]. intros kvs. discriminate. }
  destruct (proj1 (unresolved_action_throws missing_world 0
                     (set_actions [Act ["sub"] [VNum 1]] (new_saw adder))
                     ["sub"] [VNum 1] eq_refl eq_refl) U)
    as (w' & s' & R1 & _ & R2 & _ & R3 & (_ & _ & _ & _ & R4) & _).
  exists w', s'. repeat split; assumption.
Defined.

(** C8 as stated fails here.  The adder has no operation [toString], yet
    the record for [toString] makes [next()] throw nothing: the function that
    the surface inherits from the host is called, the record is consumed, no
    operation of the surface runs and nothing is signalled.  The same with
    the path [tools] of the toolbox, which leads to an object and not to a
    function: [next()] calls the [apply] of that object. *)
Lemma unresolved_action_not_always_thrown :
  (exists kvs, adder = Obj kvs /\ assoc "toString" kvs = None)
  /\ (forall f, resolve adder ["toString"] <> Some (Own (Fn f)))
  /\ pending (set_actions [Act ["toString"] [VNum 1]] (new_saw adder))
     = Some (Act ["toString"] [VNum 1])
  /\ saw_next 0 stray_world
     = Ok [] (mkWorld [new_saw adder] [] [])
  /\ ~ (exists e w', saw_next 0 stray_world = Raise e w')
  /\ (forall f, resolve toolbox ["tools"] <> Some (Own (Fn f)))
  /\ saw_next 0 toolbox_world
     = Ok [] (mkWorld [new_saw toolbox] [] [EvMethod 0 ["tools"] [VNum 1]])
  /\ ~ (exists e w', saw_next 0 toolbox_world = Raise e w').
Proof.
  split; [eexists; split; reflexivity|]. split; [intros f; discriminate|].
  split; [reflexivity|]. split; [reflexivity|].
  split; [intros (e & w' & H); discriminate|].
  split; [intros f; discriminate|]. split; [reflexivity|].
  intros (e & w' & H). discriminate.
Qed.

(** ** Recording is inherited by the child *)

(** C9. [nest] builds the child and, when the parent's cursor is defined,
    calls [record()] on it before [chain()] and before the callback: the
    callback runs in a world where the child's cursor is [0].  Under a parent
    whose cursor is undefined the child's cursor is undefined too.  Whether
    the callback returns or throws, the child's mode is the same when [nest]
    ends, and the parent's cursor is the one it had. *)
Theorem nest_child_inherits_recording
  (w : world) (sid : nat) (s : saw) (flag : option bool)
  (cb : list value -> list fcall) (args : list value) :
  saws w !! sid = Some s ->
  let child := length (saws w) in
  let s1 := match step s with
            | Some _ => upgradeChainsaw (new_saw (builder s))
            | None => new_saw (builder s)
            end in
  let w1 := schedule child (alloc s1 w) in
  saw_nest sid flag cb args w
  = match fluent_all (chain_surface child (builder s)) (cb args) w1 with
    | Ok _ w2 =>
        Ok [] (if autonext flag then add_listener child (LNext sid) w2 else w2)
    | Raise e w2 => Raise e w2
    | Wrong => Wrong
    end
  /\ saws w1 !! child = Some s1
  /\ (forall c, step s = Some c -> step s1 = Some 0)
  /\ (step s = None -> step s1 = None)
  /\ (forall w',
        res_world (saw_nest sid flag cb args w) = Some w' ->
        option_map step (saws w' !! child) = Some (step s1)
        /\ option_map step (saws w' !! sid) = Some (step s)).
Proof.
  intros Hs child s1 w1.
  assert (Hs1 : saws w1 !! child = Some s1) by apply alloc_lookup_new.
  assert (Hh : handlers s1 = builder s) by (unfold s1; by destruct (step s)).
  assert (Heq : saw_nest sid flag cb args w
    = match fluent_all (chain_surface child (builder s)) (cb args) w1 with
      | Ok _ w2 =>
          Ok [] (if autonext flag then add_listener child (LNext sid) w2 else w2)
      | Raise e w2 => Raise e w2
      | Wrong => Wrong
      end).
  { unfold saw_nest, saw_chain. rewrite Hs.
    rewrite alloc_lookup_new. fold s1. rewrite Hh. reflexivity. }
  assert (Hpar : saws w1 !! sid = Some s).
  { unfold w1. simpl. apply lookup_app_l_Some. exact Hs. }
  split; [exact Heq|]. split; [exact Hs1|].
  split; [intros c Hc; unfold s1; by rewrite Hc|].
  split; [intros Hc; unfold s1; by rewrite Hc|].
  intros w' Hw'. rewrite Heq in Hw'.
  destruct (fluent_all (chain_surface child (builder s)) (cb args) w1)
    as [ch2 w2|e w2|] eqn:E; simpl in Hw'; [| |discriminate];
    injection Hw' as <-.
  - assert (St : forall j, option_map step (saws w2 !! j)
                           = option_map step (saws w1 !! j)).
    { apply fluent_all_steps with (ch := chain_surface child (builder s))
        (cs := cb args). by rewrite E. }
    destruct (autonext flag); rewrite ?add_listener_steps, !St, Hs1, Hpar; done.
  - assert (St : forall j, option_map step (saws w2 !! j)
                           = option_map step (saws w1 !! j)).
    { apply fluent_all_steps with (ch := chain_surface child (builder s))
        (cs := cb args). by rewrite E. }
    rewrite !St, Hs1, Hpar. done.
Qed.

Lemma nest_child_inherits_recording_witness :
  (forall w',
     res_world (saw_nest 0 None nesting_callback [VNum 7] recording_world)
     = Some w' ->
     option_map step (saws w' !! 1%nat) = Some (Some 0)
     /\ option_map step (saws w' !! 0%nat) = Some (Some 0))
  /\ (forall w',
        res_world (saw_nest 0 None nesting_callback [VNum 7] light_world)
        = Some w' ->
        option_map step (saws w' !! 1%nat) = Some None
        /\ option_map step (saws w' !! 0%nat) = Some None).
Proof.
  split.
  - exact (proj2 (proj2 (proj2 (proj2
             (nest_child_inherits_recording recording_world 0
                (upgradeChainsaw (new_saw adder)) None nesting_callback
                [VNum 7] eq_refl))))).
  - exact (proj2 (proj2 (proj2 (proj2
             (nest_child_inherits_recording light_world 0 (new_saw adder)
                None nesting_callback [VNum 7] eq_refl))))).
Defined.

(** ** [record] rewinds *)

(** C10. [record()] never fails and always leaves the cursor of the chain
    at [0], whatever it was, undefined or a position; the queue and the rest
    of the saw are as they were, and so is everything else.  The [next()]
    that follows reads the first record of the queue and leaves the queue
    whole, the cursor at [1]: on a chain that was already recording with both
    its records run, the first operation is called again. *)
Theorem record_rewinds_to_zero
  (w : world) (sid : nat) (s : saw) :
  saws w !! sid = Some s ->
  exists (w' : world) (s' : saw),
    saw_record sid w = Ok [] w'
    /\ saws w' !! sid = Some s'
    /\ step s' = Some 0
    /\ actions s' = actions s
    /\ handlers s' = handlers s
    /\ builder s' = builder s
    /\ on_end s' = on_end s
    /\ (forall j, j <> sid -> saws w' !! j = saws w !! j)
    /\ ticks w' = ticks w
    /\ trace w' = trace w
    /\ (forall w'',
          res_world (saw_next sid w') = Some w'' ->
          exists s'', saws w'' !! sid = Some s''
                      /\ actions s'' = actions s
                      /\ step s'' = Some 1)
    /\ (forall p args f,
          head (actions s) = Some (Act p args) ->
          resolve (handlers s) p = Some (Own (Fn f)) ->
          exists w'',
            saw_next sid w' = Ok (frames_of sid (f args)) w''
            /\ trace w'' = trace w ++ [EvCall sid p args])
    /\ (actions s = [] ->
        exists w'',
          saw_next sid w' = Ok (List.map listener_frame (on_end s)) w''
          /\ trace w'' = trace w ++ [EvEnd sid]).
Proof.
  intros Hs.
  assert (Hs' : saws (put_saw sid (upgradeChainsaw s) w) !! sid
                = Some (upgradeChainsaw s))
    by (by apply put_saw_lookup with (s := s)).
  exists (put_saw sid (upgradeChainsaw s) w), (upgradeChainsaw s).
  split; [unfold saw_record; by rewrite Hs|].
  split; [exact Hs'|].
  do 5 (split; [reflexivity|]).
  split; [intros j Hj; simpl; apply list_lookup_insert_ne; congruence|].
  split; [reflexivity|]. split; [reflexivity|].
  split; [|split].
  - intros w'' H. exists (set_step (Some (0 + 1)) (upgradeChainsaw s)).
    split; [|done].
    by apply saw_next_keeps_queue with (w := put_saw sid (upgradeChainsaw s) w).
  - intros p args f Hh Hf. eexists. split.
    + apply saw_next_call with (s := upgradeChainsaw s); [exact Hs'| |exact Hf].
      unfold pending, pop. simpl. by rewrite idx_zero.
    + reflexivity.
  - intros Hq. eexists. split.
    + apply saw_next_end with (s := upgradeChainsaw s); [exact Hs'|].
      unfold pending, pop. simpl. by rewrite idx_zero, Hq.
    + reflexivity.
Qed.

Lemma record_rewinds_to_zero_witness :
  option_map step (saws replayed_world !! 0%nat) = Some (Some 2)
  /\ exists (w' : world) (s' : saw),
      saw_record 0 replayed_world = Ok [] w'
      /\ saws w' !! 0%nat = Some s'
      /\ step s' = Some 0
      /\ actions s' = [Act ["add"] [VNum 5]; Act ["math"; "neg"] [VNum 1]]
      /\ exists w'',
          saw_next 0 w' = Ok [FCmd 0%nat CNext] w''
          /\ trace w'' = [EvCall 0 ["add"] [VNum 5]].
Proof.
  split; [reflexivity|].
  destruct (record_rewinds_to_zero replayed_world 0 _ eq_refl)
    as (w' & s' & R1 & R2 & R3 & R4 & _ & _ & _ & _ & _ & _ & _ & R5 & _).
  exists w', s'.
  split; [exact R1|]. split; [exact R2|]. split; [exact R3|].
  split; [exact R4|].
  exact (R5 ["add"] [VNum 5] (fun _ => [CNext]) eq_refl eq_refl).
Defined.

(** * Further properties *)

(** ** The shape of the chain surface *)

(** Calling, on the chain surface, what is certainly no function. *)
Lemma fluent_no_function (sid : nat) (h : surface) (p : path)
  (args : list value) (w : world) :
  no_function (resolve h p) ->
  fluent (chain_surface sid h) (p, args) w = Raise TypeError w.
Proof.
  intros Hnf. unfold fluent, chain_surface. simpl.
  rewrite (resolve_walk (chain_visit sid) p [] h).
  destruct (resolve h p) as [[[f|kvs|v]|x]|] eqn:E; simpl in *; try done.
  by destruct v.
Qed.

(** X1. The chain surface has the shape of the handlers: a path fails on
    one exactly when it fails on the other, what is inherited from the host
    is the same on both, data is copied, objects keep their keys in order,
    and every closure sits where an operation was, queues under that path and
    on the chain that built the surface.  Calling, on the chain surface, a
    path that fails or ends at [undefined], [null], a datum or an object
    throws a [TypeError] and changes nothing. *)
Theorem chain_surface_mirrors_handlers (sid : nat) (h : surface) (p : path) :
  (resolve (chain_surface sid h) p = None <-> resolve h p = None)
  /\ (forall x, resolve (chain_surface sid h) p = Some (Host x)
                <-> resolve h p = Some (Host x))
  /\ (forall v, v <> VSurface ->
                resolve h p = Some (Own (Val v)) ->
                resolve (chain_surface sid h) p = Some (Own (Val v)))
  /\ (forall kvs, resolve h p = Some (Own (Obj kvs)) ->
        exists kvs', resolve (chain_surface sid h) p = Some (Own (Obj kvs'))
                     /\ List.map fst kvs' = List.map fst kvs)
  /\ (forall sid' ps,
        resolve (chain_surface sid h) p = Some (Own (Fn (Proxy sid' ps))) ->
        sid' = sid /\ ps = p /\ p <> []
        /\ exists f, resolve h p = Some (Own (Fn f)))
  /\ (forall args w,
        no_function (resolve h p) ->
        fluent (chain_surface sid h) (p, args) w = Raise TypeError w).
Proof.
  unfold chain_surface.
  pose proof (resolve_walk (chain_visit sid) p [] h) as R. simpl in R.
  split; [|split; [|split; [|split; [|split]]]].
  - rewrite R. destruct (resolve h p); simpl; split; congruence.
  - intros x. rewrite R.
    destruct (resolve h p) as [[n|y]|]; simpl; split; congruence.
  - intros v _ Hv. by rewrite R, Hv.
  - intros kvs Hk. rewrite R, Hk. simpl. eexists. split; [reflexivity|].
    rewrite List.map_map. reflexivity.
  - intros sid' ps H. rewrite R in H.
    destruct (resolve h p) as [[[f|kvs|v]|x]|] eqn:E; simpl in H;
      try discriminate.
    destruct p as [|k p]; simpl in H; [discriminate|].
    injection H as <- <-. repeat split; [discriminate | by exists f].
  - intros args w. apply fluent_no_function.
Qed.

Lemma chain_surface_mirrors_handlers_witness :
  fluent (chain_surface 0 adder) (["sub"], [VNum 1]) light_world
  = Raise TypeError light_world
  /\ fluent (chain_surface 0 adder) (["math"], [VNum 1]) light_world
     = Raise TypeError light_world.
Proof.
  split.
  - apply (proj2 (proj2 (proj2 (proj2 (proj2
             (chain_surface_mirrors_handlers 0 adder ["sub"])))))).
    discriminate.
  - apply (proj2 (proj2 (proj2 (proj2 (proj2
             (chain_surface_mirrors_handlers 0 adder ["math"])))))).
    exact I.
Defined.

(** ** A callback that calls what is not there *)

Lemma fluent_all_app (ch : chained) (a b : list fcall) :
  forall w,
    fluent_all ch (a ++ b) w
    = match fluent_all ch a w with
      | Ok ch' w' => fluent_all ch' b w'
      | r => r
      end.
Proof.
  induction a as [|c a IH]; intros w; [reflexivity|].
  simpl. destruct (fluent ch c w) as [ch' w'| |] eqn:E; try reflexivity.
  destruct (fluent_trace _ _ _ _ _ E) as [-> _]. apply IH.
Qed.

(** X2. When the callback handed to [nest] calls, after some calls that name
    operations, a path that fails or ends at [undefined], [null], a datum or
    an object, [nest] throws a [TypeError].  The child has been built and its
    tick is scheduled; it holds the calls made before the failing one and
    none after; no listener has been registered on it, whatever
    [autoAdvance] was; the parent and the trace are untouched. *)
Theorem nest_callback_type_error
  (w : world) (sid : nat) (s : saw) (flag : option bool)
  (cb : list value -> list fcall) (args : list value)
  (good : list fcall) (bad : fcall) (rest : list fcall) :
  saws w !! sid = Some s ->
  cb args = good ++ bad :: rest ->
  Forall (names_operation (builder s)) good ->
  no_function (resolve (builder s) (fst bad)) ->
  exists (w' : world) (orphan : saw),
    saw_nest sid flag cb args w = Raise TypeError w'
    /\ saws w' !! length (saws w) = Some orphan
    /\ length (saws w') = S (length (saws w))
    /\ on_end orphan = []
    /\ actions orphan = List.map act_of good
    /\ handlers orphan = builder s
    /\ (step orphan = None <-> step s = None)
    /\ saws w' !! sid = Some s
    /\ ticks w' = ticks w ++ [length (saws w)]
    /\ trace w' = trace w.
Proof.
  intros Hs Hcb Hgood Hbad.
  set (orphan := child_saw sid s (Some false) good).
  exists (nested orphan w), orphan.
  split; [|repeat split].
  - unfold saw_nest, saw_chain. rewrite Hs, alloc_lookup_new.
    set (s1 := match step s with
               | Some _ => upgradeChainsaw (new_saw (builder s))
               | None => new_saw (builder s)
               end).
    assert (Hh : handlers s1 = builder s) by (unfold s1; by destruct (step s)).
    rewrite Hh, Hcb.
    set (w1 := schedule (length (saws w)) (alloc s1 w)).
    assert (Hs1 : saws w1 !! length (saws w) = Some s1)
      by apply alloc_lookup_new.
    rewrite fluent_all_app, (fluent_all_queues _ _ _ w1 s1 Hs1 Hgood).
    simpl fluent_all.
    destruct bad as [bp ba]. simpl in Hbad.
    rewrite (fluent_no_function _ _ bp ba _ Hbad). f_equal.
    unfold w1, schedule, alloc. simpl. rewrite put_saw_new.
    unfold nested, orphan, child_saw, s1. simpl. by destruct (step s).
  - unfold nested. simpl. rewrite lookup_app_r by lia.
    by rewrite Nat.sub_diag.
  - unfold nested. simpl. rewrite length_app. simpl. lia.
  - unfold orphan, child_saw. simpl. by destruct (step s).
  - unfold orphan, child_saw. simpl. by destruct (step s).
  - unfold nested. simpl. by apply lookup_app_l_Some.
Qed.

Lemma nest_callback_type_error_witness :
  exists (w' : world) (orphan : saw),
    saw_nest 0 None failing_callback [VNum 1] light_world = Raise TypeError w'
    /\ saws w' !! 1%nat = Some orphan
    /\ on_end orphan = []
    /\ actions orphan = [Act ["add"] [VNum 1]]
    /\ ticks w' = [1%nat].
Proof.
  assert (Hgood : Forall (names_operation adder) [(["add"], [VNum 1])]).
  { repeat constructor; try discriminate. eexists. reflexivity. }
  destruct (nest_callback_type_error light_world 0 (new_saw adder) None
              failing_callback [VNum 1] [(["add"], [VNum 1])]
              (["sub"], [VNum 1]) [(["add"], [VNum 1])]
              eq_refl eq_refl Hgood ltac:(discriminate))
    as (w' & orphan & R1 & R2 & _ & R3 & R4 & _ & _ & _ & R5 & _).
  exists w', orphan. repeat split; assumption.
Defined.

(** ** [jump] *)



(** X4. [jump(z)] to a negative position: [next] finds nothing under the
    cursor, so "end" is signalled at once and no operation runs, although the
    whole queue lies ahead; the cursor is left at [z + 1].  After [jump(-1)]
    the cursor is [0], so one more [next()] starts the queue over; after a
    jump further back the following [next()] signals "end" again.
    (Positions from [-2^53] on, where the cursor counts exactly.) *)
Theorem jump_before_start_signals_end
  (w : world) (sid : nat) (s : saw) (c z : Z) (k : list frame) (m : nat) :
  saws w !! sid = Some s ->
  step s = Some c ->
  - 2 ^ 53 <= z < 0 ->
  exists (w' : world) (s' : saw),
    run (2 + m) (FCmd sid (CJump z) :: k) w
    = run m (List.map listener_frame (on_end s) ++ k) w'
    /\ trace w' = trace w ++ [EvEnd sid]
    /\ ticks w' = ticks w
    /\ saws w' !! sid = Some s'
    /\ actions s' = actions s
    /\ step s' = Some (z + 1)
    /\ (z = -1 -> pending s' = head (actions s))
    /\ (z < -1 -> pending s' = None).
Proof.
  intros Hs Hst [_ Hz].
  exists (log (EvEnd sid) (put_saw sid (set_step (Some (z + 1)) s) w)),
    (set_step (Some (z + 1)) s).
  split; [|split; [|split; [|split; [|split; [|split; [|split]]]]]];
    try reflexivity.
  - change (2 + m)%nat with (S (S m)).
    rewrite run_cons. simpl step_frame. unfold saw_jump. rewrite Hs, Hst.
    cbv beta iota. simpl app. rewrite run_cons. simpl step_frame.
    rewrite (saw_next_end _ _ (set_step (Some z) s)).
    + simpl. by rewrite put_saw_put_saw.
    + by apply put_saw_lookup with (s := s).
    + unfold pending. simpl. apply idx_none. by left.
  - simpl. by apply put_saw_lookup with (s := s).
  - intros ->. unfold pending. simpl. apply idx_zero.
  - intros Hz'. unfold pending. simpl. apply idx_none. left. lia.
Qed.

Lemma jump_before_start_signals_end_witness :
  exists (w' : world) (s' : saw),
    run 2 [FCmd 0%nat (CJump (-2))] replayed_world = Some (Done w')
    /\ trace w' = [EvEnd 0]
    /\ saws w' !! 0%nat = Some s'
    /\ actions s' = [Act ["add"] [VNum 5]; Act ["math"; "neg"] [VNum 1]]
    /\ step s' = Some (-1)
    /\ pending s' = None.
Proof.
  destruct (jump_before_start_signals_end replayed_world 0 _ 2 (-2) [] 0
              eq_refl eq_refl ltac:(lia))
    as (w' & s' & R1 & R2 & _ & R3 & R4 & R5 & _ & R6).
  exists w', s'.
  split; [exact R1|]. split; [exact R2|]. split; [exact R3|].
  split; [exact R4|]. split; [exact R5|]. apply R6. lia.
Defined.

(** ** Trap records in the way of [next] *)

Section DrainToTrap.
Variable sid : nat.

End DrainToTrap.



(** ** [record] on a light chain *)

(** X6. [record()] called on a light chain that still has [N] records queued
    (operations that end by calling [next()]): the [next()] that follows runs
    the same [N] operations in the same order and signals "end", exactly as
    without [record()]; the difference is the queue, emptied without
    [record()] and kept whole with it, the cursor past its end. *)
Theorem record_on_light_chain_keeps_rest
  (w : world) (sid : nat) (s : saw) (cs : list fcall)
  (k : list frame) (m : nat) :
  saws w !! sid = Some s ->
  step s = None ->
  actions s = List.map act_of cs ->
  Forall (self_advancing (handlers s)) cs ->
  let t := List.map (call_of sid) cs ++ [EvEnd sid] in
  run (length cs + 1 + m) (FCmd sid CNext :: k) w
  = run m (List.map listener_frame (on_end s) ++ k)
      (logs t (put_saw sid (set_actions [] s) w))
  /\ run (length cs + 2 + m) (FCmd sid CRecord :: FCmd sid CNext :: k) w
     = run m (List.map listener_frame (on_end s) ++ k)
         (logs t (put_saw sid
                    (set_step (Some (Z.of_nat (length cs) + 1)) s) w)).
Proof.
  intros Hs Hst Hq Hadv t. split.
  - rewrite (drain sid cs w s k m Hs).
    + rewrite (consume_light _ _ Hst).
      rewrite drop_ge by (rewrite Hq, length_map; lia). reflexivity.
    + intros c. by rewrite Hst.
    + unfold remaining. by rewrite Hst.
    + exact Hadv.
  - replace (length cs + 2 + m)%nat with (S (length cs + 1 + m)) by lia.
    rewrite run_cons. simpl step_frame. unfold saw_record. rewrite Hs.
    cbv beta iota. simpl app.
    rewrite (drain sid cs _ (upgradeChainsaw s) k m).
    + rewrite (consume_recording _ (upgradeChainsaw s) 0 eq_refl).
      rewrite put_saw_put_saw.
      replace (0 + Z.of_nat (S (length cs))) with (Z.of_nat (length cs) + 1)
        by lia.
      reflexivity.
    + by apply put_saw_lookup with (s := s).
    + intros c [= <-]. lia.
    + unfold remaining. simpl. by rewrite drop_0.
    + exact Hadv.
Qed.

Lemma record_on_light_chain_keeps_rest_witness :
  run 4 [FCmd 0%nat CRecord; FCmd 0%nat CNext] queued_light_world
  = Some (Done
      (logs [EvCall 0 ["add"] [VNum 5]; EvCall 0 ["math"; "neg"] [VNum 1];
             EvEnd 0]
         (put_saw 0
            (set_step (Some 3)
               (set_actions (List.map act_of adder_calls) (new_saw adder)))
            queued_light_world))).
Proof.
  refine (proj2 (record_on_light_chain_keeps_rest queued_light_world 0
                   (set_actions (List.map act_of adder_calls) (new_saw adder))
                   adder_calls [] 0 eq_refl eq_refl eq_refl _)).
  repeat constructor; eexists; split; reflexivity.
Defined.

(** ** [down] *)

Lemma idx_last (l : list action) : idx l (Z.of_nat (length l) - 1) = last l.
Proof.
  unfold idx. destruct l as [|x l]; [reflexivity|].
  destruct (Z.ltb_spec (Z.of_nat (length (x :: l)) - 1) 0) as [H|_];
    [simpl in H; lia|].
  rewrite last_lookup. f_equal. simpl. lia.
Qed.

(** X7. [down(name)] with a match ahead that is an ordinary record not preceded
    by a trap record: the records between the cursor and the match are
    skipped, none of them runs and nothing is signalled; the first thing that
    happens is the call of the matched operation with its recorded
    arguments, and the cursor is just past the match. *)
Theorem down_skips_to_match
  (w : world) (sid : nat) (s : saw) (c : Z) (n : name) (i : nat)
  (p : path) (args : list value) (f : body) (k : list frame) (m : nat) :
  saws w !! sid = Some s ->
  step s = Some c ->
  0 <= c ->
  first_match s c n i (Act p args) ->
  (forall q t cb, idx (actions s) (c + Z.of_nat i - 1) <> Some (Trap q t cb)) ->
  resolve (handlers s) p = Some (Own (Fn f)) ->
  run (2 + m) (FCmd sid (CDown n) :: k) w
  = run m (frames_of sid (f args) ++ k)
      (log (EvCall sid p args)
         (put_saw sid (set_step (Some (c + Z.of_nat i + 1)) s) w)).
Proof.
  intros Hs Hst Hc Hfm Hnt Hf.
  pose proof (down_cursor_found s c n i _ Hc Hfm) as Hcur.
  change (2 + m)%nat with (S (S m)).
  rewrite run_cons. simpl step_frame.
  rewrite (saw_down_next w sid s c n Hs Hst) by (by rewrite Hcur).
  rewrite Hcur. simpl app. rewrite run_cons. simpl step_frame.
  rewrite (saw_next_call _ _ (set_step (Some (c + Z.of_nat i)) s) p args f).
  - simpl. by rewrite put_saw_put_saw.
  - by apply put_saw_lookup with (s := s).
  - unfold pending. simpl. unfold idx.
    destruct (Z.ltb_spec (c + Z.of_nat i) 0); [lia|].
    destruct Hfm as (Hx & _ & _). rewrite <- Hx. f_equal. lia.
  - exact Hf.
Qed.

Lemma down_skips_to_match_witness :
  run 3 [FCmd 0%nat (CDown (NStr "add"))] skipping_world
  = Some (Done
      (logs [EvCall 0 ["add"] [VNum 5]; EvEnd 0]
         (put_saw 0 (set_step (Some 3) skipping_saw) skipping_world))).
Proof.
  refine (down_skips_to_match skipping_world 0 skipping_saw 0 (NStr "add") 1
            ["add"] [VNum 5] (fun _ => [CNext]) [] 1
            eq_refl eq_refl _ _ _ eq_refl).
  - lia.
  - split; [reflexivity|]. split; [reflexivity|].
    intros j y Hj. destruct j as [|j]; [|lia].
    intros [= <-]. reflexivity.
  - intros q t cb. discriminate.
Defined.

(** X8. [down(name)] with no match ahead.  If the last record of the queue is a
    trap record, that trap fires, whatever name it was registered under: its
    callback is called and the cursor goes to its registration step.  In
    every other case "end" is signalled at once, with the cursor one past the
    length of the queue. *)
Theorem down_without_match
  (w : world) (sid : nat) (s : saw) (c : Z) (n : name)
  (k : list frame) (m : nat) :
  saws w !! sid = Some s ->
  step s = Some c ->
  0 <= c ->
  no_match s c n ->
  (forall p t cb,
     last (actions s) = Some (Trap p t cb) ->
     run (S m) (FCmd sid (CDown n) :: k) w
     = run m (frames_of sid cb ++ k)
         (log (EvTrap sid p t) (put_saw sid (set_step (Some t) s) w)))
  /\ ((forall p t cb, last (actions s) <> Some (Trap p t cb)) ->
      run (2 + m) (FCmd sid (CDown n) :: k) w
      = run m (List.map listener_frame (on_end s) ++ k)
          (log (EvEnd sid)
             (put_saw sid
                (set_step (Some (Z.of_nat (length (actions s)) + 1)) s) w))).
Proof.
  intros Hs Hst Hc Hno.
  pose proof (down_cursor_absent s c n Hc Hno) as Hcur.
  split.
  - intros p t cb Hlast. rewrite run_cons. simpl step_frame.
    rewrite (saw_down_trap w sid s c n p t cb Hs Hst); [reflexivity|].
    by rewrite Hcur, idx_last.
  - intros Hlast. change (2 + m)%nat with (S (S m)).
    rewrite run_cons. simpl step_frame.
    rewrite (saw_down_next w sid s c n Hs Hst)
      by (rewrite Hcur, idx_last; exact Hlast).
    rewrite Hcur. simpl app. rewrite run_cons. simpl step_frame.
    rewrite (saw_next_end _ _
               (set_step (Some (Z.of_nat (length (actions s)))) s)).
    + simpl. by rewrite put_saw_put_saw.
    + by apply put_saw_lookup with (s := s).
    + unfold pending. simpl. apply idx_none. right. lia.
Qed.

Lemma down_without_match_witness :
  run 4 [FCmd 0%nat (CDown (NStr "elsewhere"))] loop_world
  = Some (Done
      (logs [EvTrap 0 ["again"] 0; EvCall 0 ["add"] [VNum 5]]
         (put_saw 0 (set_step (Some 2) loop_saw) loop_world))).
Proof.
  refine (proj1 (down_without_match loop_world 0 loop_saw 1
                   (NStr "elsewhere") [] 3 eq_refl eq_refl _ _)
            ["again"] 0 [CNext] eq_refl).
  - lia.
  - intros i y. destruct i as [|i]; simpl.
    + intros [= <-]. reflexivity.
    + discriminate.
Defined.

(** ** After the end *)

Lemma put_saw_same (sid : nat) (s : saw) (w : world) :
  saws w !! sid = Some s -> put_saw sid s w = w.
Proof.
  intros H. destruct w as [l t tr]. unfold put_saw. simpl in *.
  f_equal. by apply list_insert_id.
Qed.

Lemma exhausted_pop (s : saw) :
  exhausted s ->
  pending s = None /\ exhausted (snd (pop s))
  /\ actions (snd (pop s)) = actions s.
Proof.
  unfold exhausted, pending. destruct (step s) as [c|] eqn:Hst; intros H.
  - rewrite (pop_recording _ _ Hst). simpl in *. split; [|split; [lia|done]].
    apply idx_none. by right.
  - rewrite (pop_light _ Hst). simpl. rewrite Hst, H. done.
Qed.

Section Exhausted.
Variable sid : nat.

Lemma exhausted_run (n : nat) :
  forall (w : world) (s : saw),
    saws w !! sid = Some s ->
    on_end s = [] ->
    exhausted s ->
    run n (repeat (FCmd sid CNext) n) w
    = Some (Done (logs (repeat (EvEnd sid) n) (put_saw sid (consume n s) w)))
    /\ exhausted (consume n s)
    /\ actions (consume n s) = actions s.
Proof.
  induction n as [|n IH]; intros w s Hs Hend Hex.
  - simpl. by rewrite logs_nil, (put_saw_same _ _ _ Hs).
  - destruct (exhausted_pop s Hex) as (Hp & Hex' & Hq').
    simpl repeat. rewrite run_cons. simpl step_frame.
    rewrite (saw_next_end _ _ _ Hs Hp), Hend. simpl app.
    destruct (IH (log (EvEnd sid) (put_saw sid (snd (pop s)) w))
                (snd (pop s))) as (R & Hex'' & Hq'').
    + simpl. by apply put_saw_lookup with (s := s).
    + by rewrite pop_on_end.
    + exact Hex'.
    + rewrite R. simpl consume. split; [|split; [exact Hex''|congruence]].
      rewrite log_logs, put_saw_logs, put_saw_put_saw, logs_logs.
      reflexivity.
Qed.
End Exhausted.

(** X9. Once a chain without listeners is exhausted it stays so: every further
    [next()] signals "end" again and does nothing else, so [n] calls give [n]
    "end" signals; the queue does not change; in recording mode the cursor
    has moved on by [n] (as long as it stays within [2^53], where it counts
    exactly). *)
Theorem exhausted_chain_signals_end_every_time
  (w : world) (sid : nat) (s : saw) (n fuel : nat) :
  saws w !! sid = Some s ->
  on_end s = [] ->
  exhausted s ->
  (forall c, step s = Some c -> c + Z.of_nat n <= 2 ^ 53) ->
  (n <= fuel)%nat ->
  exists (w' : world) (s' : saw),
    run fuel (repeat (FCmd sid CNext) n) w = Some (Done w')
    /\ trace w' = trace w ++ repeat (EvEnd sid) n
    /\ ticks w' = ticks w
    /\ saws w' !! sid = Some s'
    /\ actions s' = actions s
    /\ step s' = option_map (fun c => c + Z.of_nat n) (step s)
    /\ exhausted s'
    /\ (forall j, j <> sid -> saws w' !! j = saws w !! j).
Proof.
  intros Hs Hend Hex _ Hn.
  destruct (exhausted_run sid n w s Hs Hend Hex) as (R & H1 & H2).
  exists (logs (repeat (EvEnd sid) n) (put_saw sid (consume n s) w)),
    (consume n s).
  split; [by apply (run_more_fuel n fuel _ _ _ R)|].
  split; [reflexivity|]. split; [reflexivity|].
  split; [simpl; by apply put_saw_lookup with (s := s)|].
  split; [exact H2|].
  split.
  - destruct (step s) as [c|] eqn:Hst.
    + by rewrite (consume_recording _ _ _ Hst).
    + rewrite (consume_light _ _ Hst). simpl. by rewrite Hst.
  - split; [exact H1|].
    intros j Hj. simpl. apply list_lookup_insert_ne. congruence.
Qed.

Lemma exhausted_chain_signals_end_every_time_witness :
  exists (w' : world) (s' : saw),
    run 2 (repeat (FCmd 0%nat CNext) 2) replayed_world = Some (Done w')
    /\ trace w' = [EvEnd 0; EvEnd 0]
    /\ saws w' !! 0%nat = Some s'
    /\ actions s' = [Act ["add"] [VNum 5]; Act ["math"; "neg"] [VNum 1]]
    /\ step s' = Some 4.
Proof.
  assert (Hex : exhausted
                  (set_step (Some 2)
                     (set_actions (List.map act_of adder_calls)
                        (upgradeChainsaw (new_saw adder)))))
    by (unfold exhausted; simpl; lia).
  destruct (exhausted_chain_signals_end_every_time replayed_world 0 _
              2 2 eq_refl eq_refl Hex
              ltac:(intros c [= <-]; simpl; lia) (le_n 2))
    as (w' & s' & R1 & R2 & _ & R3 & R4 & R5 & _).
  exists w', s'. repeat split; assumption.
Defined.

(** ** Both constructors, one session *)

(** X10. A session built by [chainsaw] and the same session built by
    [chainsaw.light] are seen alike: "begin" once, then the calls of the
    chain in the order they were issued, each nesting operation followed by
    the whole life of its child, then "end".  (Operations that end by calling
    [next()] or nest a callback.) *)
Theorem both_constructors_run_alike
  (b : surface) (cs : list fcall) (kinds : list op_kind) (fuel : nat)
  (recording : bool) :
  length kinds = length cs ->
  Forall (names_operation b) cs ->
  Forall (behaves b) (zip cs kinds) ->
  (cost (zip cs kinds) + 2 <= fuel)%nat ->
  session recording b cs fuel
  = Some (EvBegin 0 :: run_trace 0 1 (zip cs kinds)).
Proof.
  intros Hlen Hops Hall Hfuel.
  destruct fuel as [|[|f]]; [lia|lia|].
  set (s0 := if recording then upgradeChainsaw (new_saw b) else new_saw b).
  assert (Hc : (if recording then chainsaw else chainsaw_light) b empty_world
               = Some (0%nat, chain_surface 0 b, mkWorld [s0] [0%nat] [])).
  { unfold s0. by destruct recording. }
  unfold session. rewrite Hc.
  rewrite (fluent_all_queues 0 b cs (mkWorld [s0] [0%nat] []) s0 eq_refl Hops).
  assert (Ha : actions s0 = []) by (unfold s0; by destruct recording).
  rewrite Ha. simpl app.
  set (s1 := set_actions (List.map act_of cs) s0).
  change (event_loop (S (S f)) _)
    with (match run (S f) [FTick 0%nat] (mkWorld [s1] [] []) with
          | Some (Done w') => event_loop (S f) w'
          | r => r
          end).
  rewrite run_cons. simpl step_frame. cbv beta iota.
  rewrite (app_nil_r [FCmd 0%nat CNext]).
  fold (settle f (S f) [FCmd 0%nat CNext]
          (log (EvBegin 0) (mkWorld [s1] [] []))).
  rewrite (settle_chain 0 (zip cs kinds) _ s1 f (S f)); try reflexivity.
  - unfold s1, s0. intros c. destruct recording; simpl; [|discriminate].
    intros [= <-]. lia.
  - unfold remaining, s1, s0. destruct recording; simpl;
      by rewrite ?drop_0, (map_fst_zip act_of _ _ Hlen).
  - unfold s1, s0. by destruct recording.
  - unfold s1, s0. by destruct recording.
  - unfold s1, s0. by destruct recording.
  - lia.
  - lia.
Qed.

Lemma both_constructors_run_alike_witness :
  session true adder readme_calls 10
  = Some (EvBegin 0 :: run_trace 0 1 (zip readme_calls readme_kinds))
  /\ session false adder readme_calls 10
     = Some (EvBegin 0 :: run_trace 0 1 (zip readme_calls readme_kinds)).
Proof.
  assert (Hops : Forall (names_operation adder) readme_calls).
  { repeat constructor; try discriminate; eexists; reflexivity. }
  split.
  - exact (both_constructors_run_alike adder readme_calls readme_kinds 10 true
             eq_refl Hops readme_behaves (le_n 10)).
  - exact (both_constructors_run_alike adder readme_calls readme_kinds 10 false
             eq_refl Hops readme_behaves (le_n 10)).
Defined.

(** ** What recording never loses *)

Lemma kept_refl (s : saw) : is_Some (step s) -> kept s s.
Proof. intros H. repeat split; [exact H|]. exists []. by rewrite app_nil_r. Qed.

Lemma kept_trans (s1 s2 s3 : saw) : kept s1 s2 -> kept s2 s3 -> kept s1 s3.
Proof.
  intros (_ & Hh & Hb & m1 & Hq) (Hst & Hh' & Hb' & m2 & Hq').
  repeat split; [exact Hst | congruence | congruence|].
  exists (m1 ++ m2). by rewrite Hq', Hq, app_assoc.
Qed.

Lemma keeps_refl (w : world) : keeps_recordings w w.
Proof. intros j s Hs Hst. exists s. split; [exact Hs | by apply kept_refl]. Qed.

Lemma keeps_trans (w1 w2 w3 : world) :
  keeps_recordings w1 w2 -> keeps_recordings w2 w3 -> keeps_recordings w1 w3.
Proof.
  intros H12 H23 j s Hs Hst.
  destruct (H12 j s Hs Hst) as (s2 & Hs2 & K2).
  destruct (H23 j s2 Hs2 (proj1 K2)) as (s3 & Hs3 & K3).
  exists s3. split; [exact Hs3 | by eapply kept_trans].
Qed.

Lemma keeps_same_saws (w w' : world) :
  saws w' = saws w -> keeps_recordings w w'.
Proof. intros H j s Hs Hst. rewrite H. exists s. by split; [|apply kept_refl]. Qed.

Lemma keeps_put (sid : nat) (s0 s' : saw) (w : world) :
  saws w !! sid = Some s0 ->
  (is_Some (step s0) -> kept s0 s') ->
  keeps_recordings w (put_saw sid s' w).
Proof.
  intros Hs0 K j s Hs Hst. destruct (decide (sid = j)) as [<-|Hne].
  - rewrite Hs0 in Hs. injection Hs as <-.
    exists s'. split; [by apply put_saw_lookup with (s := s0) | by apply K].
  - exists s. rewrite put_saw_lookup_ne by exact Hne.
    split; [exact Hs | by apply kept_refl].
Qed.

Lemma keeps_alloc (x : saw) (w : world) : keeps_recordings w (alloc x w).
Proof.
  intros j s Hs Hst. exists s. split; [|by apply kept_refl].
  simpl. by apply lookup_app_l_Some.
Qed.

Lemma keeps_push (sid : nat) (a : action) (w w' : world) :
  push_action sid a w = Some w' -> keeps_recordings w w'.
Proof.
  unfold push_action. destruct (saws w !! sid) as [s0|] eqn:Hs0; [|discriminate].
  intros [= <-]. apply (keeps_put _ s0); [exact Hs0|].
  intros Hst. repeat split; [exact Hst|]. by exists [a].
Qed.

Lemma keeps_fluent (ch : chained) (c : fcall) (w w' : world) :
  res_world (fluent ch c w) = Some w' -> keeps_recordings w w'.
Proof.
  unfold fluent, proxy_call.
  destruct (resolve ch (fst c)) as [[[[b|sid ps]|kvs|v]|h]|]; simpl;
    try discriminate; try (intros [= <-]; apply keeps_refl);
    [|destruct v; simpl; try discriminate; intros [= <-]; apply keeps_refl].
  destruct (push_action sid (Act ps (snd c)) w) as [w2|] eqn:E;
    [|discriminate].
  simpl. intros [= <-]. by eapply keeps_push.
Qed.

Lemma keeps_fluent_all (ch : chained) (cs : list fcall) :
  forall w w', res_world (fluent_all ch cs w) = Some w' ->
               keeps_recordings w w'.
Proof.
  induction cs as [|c cs IH]; intros w w' H.
  - simpl in H. injection H as <-. apply keeps_refl.
  - simpl in H. destruct (fluent ch c w) as [ch1 w1|e w1|] eqn:E.
    + destruct (fluent_trace _ _ _ _ _ E) as [-> _].
      apply (keeps_trans _ w1); [|by apply IH].
      apply (keeps_fluent ch c). by rewrite E.
    + apply (keeps_fluent ch c). by rewrite E.
    + discriminate.
Qed.

Lemma keeps_add_listener (sid : nat) (l : listener) (w : world) :
  keeps_recordings w (add_listener sid l w).
Proof.
  unfold add_listener. destruct (saws w !! sid) as [s0|] eqn:Hs0;
    [|apply keeps_refl].
  apply (keeps_put _ s0); [exact Hs0|].
  intros Hst. repeat split; [exact Hst|]. exists []. simpl. by rewrite app_nil_r.
Qed.

Lemma keeps_set_step (sid : nat) (s0 : saw) (z : Z) (w : world) :
  saws w !! sid = Some s0 ->
  keeps_recordings w (put_saw sid (set_step (Some z) s0) w).
Proof.
  intros Hs0. apply (keeps_put _ s0); [exact Hs0|].
  intros _. repeat split; [by eexists|]. exists []. simpl. by rewrite app_nil_r.
Qed.

Lemma keeps_pop (sid : nat) (s0 : saw) (w : world) :
  saws w !! sid = Some s0 ->
  keeps_recordings w (put_saw sid (snd (pop s0)) w).
Proof.
  intros Hs0. apply (keeps_put _ s0); [exact Hs0|].
  intros [c Hst]. rewrite (pop_recording _ _ Hst). simpl.
  repeat split; [by eexists|]. exists []. simpl. by rewrite app_nil_r.
Qed.

Lemma keeps_step_frame (f : frame) (w w' : world) :
  res_world (step_frame f w) = Some w' -> keeps_recordings w w'.
Proof.
  intros H. destruct f as [sid c|sid];
    [|injection H as <-; by apply keeps_same_saws].
  destruct c as [|flag cb args| |n cb|n|z]; simpl in H.
  - unfold saw_next in H. destruct (saws w !! sid) as [s|] eqn:Hs;
      [|discriminate].
    apply (keeps_trans _ (put_saw sid (snd (pop s)) w));
      [by apply keeps_pop|].
    destruct (fst (pop s)) as [[p args|p t cb]|].
    + destruct (resolve (handlers s) p) as [x|]; simpl in H;
        [|injection H as <-; by apply keeps_same_saws].
      apply apply_node_frame in H as (H & _). by apply keeps_same_saws.
    + injection H as <-. apply keeps_refl.
    + unfold emit_end in H. rewrite (put_saw_lookup _ _ _ _ Hs) in H.
      injection H as <-. by apply keeps_same_saws.
  - unfold saw_nest, saw_chain in H.
    destruct (saws w !! sid) as [s|] eqn:Hs; [|discriminate].
    rewrite alloc_lookup_new in H.
    set (s1 := match step s with
               | Some _ => upgradeChainsaw (new_saw (builder s))
               | None => new_saw (builder s)
               end) in H.
    set (w1 := schedule (length (saws w)) (alloc s1 w)) in H.
    assert (K1 : keeps_recordings w w1).
    { apply (keeps_trans _ (alloc s1 w)); [apply keeps_alloc|].
      by apply keeps_same_saws. }
    destruct (fluent_all _ (cb args) w1) as [ch2 w2|e w2|] eqn:E;
      simpl in H; [| |discriminate]; injection H as <-.
    + assert (K2 : keeps_recordings w1 w2)
        by (eapply keeps_fluent_all; by rewrite E).
      apply (keeps_trans _ w1); [exact K1|].
      destruct (autonext flag); [|exact K2].
      apply (keeps_trans _ w2); [exact K2 | apply keeps_add_listener].
    + apply (keeps_trans _ w1); [exact K1|].
      eapply keeps_fluent_all. by rewrite E.
  - unfold saw_record in H. destruct (saws w !! sid) as [s|] eqn:Hs;
      [|discriminate].
    injection H as <-. by apply keeps_set_step.
  - unfold saw_trap in H. destruct (saws w !! sid) as [s|] eqn:Hs;
      [|discriminate].
    destruct (step s) as [c|] eqn:Hst; simpl in H; injection H as <-;
      [|apply keeps_refl].
    apply (keeps_put _ s); [exact Hs|].
    intros _. repeat split; [simpl; by rewrite Hst|]. by eexists.
  - unfold saw_down in H. destruct (saws w !! sid) as [s|] eqn:Hs;
      [|discriminate].
    destruct (step s) as [c|] eqn:Hst; simpl in H;
      [|injection H as <-; apply keeps_refl].
    destruct (idx (actions s) (down_cursor s c n - 1)) as [[?|p t cb]|];
      simpl in H; injection H as <-.
    + by apply keeps_set_step.
    + apply (keeps_trans _ (put_saw sid (set_step (Some t) s) w));
        [by apply keeps_set_step | by apply keeps_same_saws].
    + by apply keeps_set_step.
  - unfold saw_jump in H. destruct (saws w !! sid) as [s|] eqn:Hs;
      [|discriminate].
    destruct (step s) as [c|] eqn:Hst; simpl in H; injection H as <-;
      [by apply keeps_set_step | apply keeps_refl].
Qed.

Lemma keeps_run (fuel : nat) :
  forall (k : list frame) (w w' : world) (o : outcome),
    run fuel k w = Some o -> outcome_world o = Some w' ->
    keeps_recordings w w'.
Proof.
  induction fuel as [|fuel IH]; intros k w w' o Hrun Ho.
  - destruct k; [|discriminate]. injection Hrun as <-. injection Ho as <-.
    apply keeps_refl.
  - destruct k as [|f k].
    + injection Hrun as <-. injection Ho as <-. apply keeps_refl.
    + rewrite run_cons in Hrun.
      destruct (step_frame f w) as [new w1|e w1|] eqn:E.
      * apply (keeps_trans _ w1); [|by eapply IH].
        apply (keeps_step_frame f). by rewrite E.
      * injection Hrun as <-. injection Ho as <-.
        apply (keeps_step_frame f). by rewrite E.
      * injection Hrun as <-. discriminate.
Qed.

Lemma keeps_event_loop (fuel : nat) :
  forall (w w' : world) (o : outcome),
    event_loop fuel w = Some o -> outcome_world o = Some w' ->
    keeps_recordings w w'.
Proof.
  induction fuel as [|fuel IH]; intros w w' o Hrun Ho.
  - simpl in Hrun. destruct (ticks w); [|discriminate].
    injection Hrun as <-. injection Ho as <-. apply keeps_refl.
  - simpl in Hrun. destruct (ticks w) as [|sid rest].
    + injection Hrun as <-. injection Ho as <-. apply keeps_refl.
    + destruct (run fuel [FTick sid] (set_ticks rest w)) as [[w1|e w1|]|] eqn:E;
        try discriminate.
      * apply (keeps_trans _ w1); [|by eapply IH].
        apply (keeps_trans _ (set_ticks rest w));
          [by apply keeps_same_saws|].
        by eapply keeps_run.
      * injection Hrun as <-. injection Ho as <-.
        apply (keeps_trans _ (set_ticks rest w));
          [by apply keeps_same_saws|].
        by eapply (keeps_run fuel _ _ _ (Threw e w1)).
      * injection Hrun as <-. discriminate.
Qed.

(** X11. In recording mode nothing is ever taken from a queue.  Whatever a
    synchronous turn or the scheduler runs, and whether it ends normally or in
    an exception, every chain that was recording before is still recording
    after, with the same surface and with the queue it had, in the same
    order, possibly with more records behind it. *)
Theorem recording_queue_only_grows
  (fuel : nat) (k : list frame) (w w' : world) (o : outcome) (j : nat)
  (s : saw) :
  saws w !! j = Some s ->
  is_Some (step s) ->
  outcome_world o = Some w' ->
  run fuel k w = Some o \/ event_loop fuel w = Some o ->
  exists s' more,
    saws w' !! j = Some s'
    /\ actions s' = actions s ++ more
    /\ is_Some (step s')
    /\ handlers s' = handlers s.
Proof.
  intros Hs Hst Ho [Hrun|Hrun].
  - destruct (keeps_run fuel k w w' o Hrun Ho j s Hs Hst)
      as (s' & Hs' & Hst' & Hh & _ & more & Hq).
    by exists s', more.
  - destruct (keeps_event_loop fuel w w' o Hrun Ho j s Hs Hst)
      as (s' & Hs' & Hst' & Hh & _ & more & Hq).
    by exists s', more.
Qed.

Lemma recording_queue_only_grows_witness :
  exists s' more,
    saws (put_saw 0
            (set_actions
               (List.map act_of adder_calls ++ [Trap ["again"] 2 [CNext]])
               (set_step (Some 2)
                  (set_actions (List.map act_of adder_calls)
                     (upgradeChainsaw (new_saw adder)))))
            replayed_world) !! 0%nat = Some s'
    /\ actions s' = List.map act_of adder_calls ++ more
    /\ is_Some (step s')
    /\ handlers s' = adder.
Proof.
  refine (recording_queue_only_grows 1
            [FCmd 0%nat (CTrap (NStr "again") [CNext])] replayed_world _
            (Done _) 0 _ eq_refl _ eq_refl _).
  - by eexists.
  - left. reflexivity.
Defined.

(** ** Where a trap sends the chain back to *)

(** X12. An operation that registers a trap runs with the cursor already past
    its own record, so the trap record it pushes carries the position of the
    record that follows the operation: when the trap fires, the chain resumes
    there and the registering operation itself is not run again.  The trap
    record goes to the end of the queue; [trap] itself calls neither [next]
    nor the callback. *)
Theorem trap_marks_the_record_after_its_caller
  (w : world) (sid : nat) (s : saw) (c : Z) (p : path) (args : list value)
  (f : body) (n : name) (cb : prog) (body_rest : prog)
  (k : list frame) (m : nat) :
  saws w !! sid = Some s ->
  step s = Some c ->
  idx (actions s) c = Some (Act p args) ->
  resolve (handlers s) p = Some (Own (Fn f)) ->
  f args = CTrap n cb :: body_rest ->
  run (2 + m) (FCmd sid CNext :: k) w
  = run m (frames_of sid body_rest ++ k)
      (log (EvCall sid p args)
         (put_saw sid
            (set_actions (actions s ++ [Trap (name_path n) (c + 1) cb])
               (set_step (Some (c + 1)) s))
            w)).
Proof.
  intros Hs Hst Hidx Hf Hbody.
  change (2 + m)%nat with (S (S m)).
  rewrite run_cons. simpl step_frame.
  rewrite (saw_next_call _ _ _ p args f Hs)
    by (try exact Hf; unfold pending; by rewrite (pop_recording _ _ Hst)).
  rewrite Hbody, (pop_recording _ _ Hst). simpl snd. simpl app.
  rewrite run_cons. simpl step_frame. unfold saw_trap.
  assert (Hs' : saws (log (EvCall sid p args)
                        (put_saw sid (set_step (Some (c + 1)) s) w)) !! sid
                = Some (set_step (Some (c + 1)) s))
    by (by apply put_saw_lookup with (s := s)).
  rewrite Hs'. simpl step. cbv beta iota. simpl app.
  rewrite log_logs, put_saw_logs, put_saw_put_saw. reflexivity.
Qed.

Lemma trap_marks_the_record_after_its_caller_witness :
  run 5 [FCmd 0%nat CNext] marker_world
  = Some (Done
      (logs [EvCall 0 ["mark"] []; EvCall 0 ["add"] [VNum 5]]
         (put_saw 0
            (set_actions [Act ["mark"] []; Act ["add"] [VNum 5];
                          Trap ["again"] 1 [CNext]]
               (set_step (Some 3) marker_saw))
            marker_world))).
Proof.
  exact (trap_marks_the_record_after_its_caller marker_world 0 marker_saw 0
           ["mark"] [] _ (NStr "again") [CNext] [CNext] [] 3
           eq_refl eq_refl eq_refl eq_refl eq_refl).
Defined.
